(** * mmh: batch execution of one command on one or many SSH servers

    A model of [Exec] and [exec] (package [mmh]) as an interleaving
    transition system.  Every goroutine of the Go program is a thread with
    its own program counter; channels, wait groups and the context are shared
    state; one transition is one statement of one goroutine.  The remote side
    (the ssh client, the [sshutils] session and its three signals, the
    standard-output pipe) is described by a [Remote] record listing what each
    operation on it yields; when it yields it is decided by the schedule. *)

From Stdlib Require Import String Ascii List Bool Arith Lia.
From stdpp Require Import base list.
Import ListNotations.

Local Open Scope string_scope.
Local Open Scope list_scope.

Infix "+++" := String.append (at level 60, right associativity).

(** Go [error] values are identified by their message. *)
Definition error := string.

(* ------------------------------------------------------------------ *)
(** ** Strings as byte sequences *)

Module Bytes.

Definition LF : ascii := "010"%char.

(** The line-feed byte as a one-byte string. *)
Definition nl : string := String LF EmptyString.

(** [cut d s] splits [s] just after the first occurrence of [d]: the left
    part ends with [d].  [None] when [d] does not occur. *)
Fixpoint cut (d : ascii) (s : string) : option (string * string) :=
  match s with
  | EmptyString => None
  | String c s' =>
      if Ascii.eqb c d then Some (String c EmptyString, s')
      else match cut d s' with
           | Some (l, r) => Some (String c l, r)
           | None => None
           end
  end.

(** Whether byte [d] occurs in [s]. *)
Fixpoint has (d : ascii) (s : string) : bool :=
  match s with
  | EmptyString => false
  | String c s' => Ascii.eqb c d || has d s'
  end.

(** Concatenation of a list of strings. *)
Fixpoint cat (l : list string) : string :=
  match l with
  | [] => EmptyString
  | s :: l' => String.append s (cat l')
  end.

End Bytes.

(* ------------------------------------------------------------------ *)
(** ** The remote side *)

(** What a receive on [sshSession.Error()] yields. *)
Inductive ErrSignal :=
| SigError (e : error)   (* a value is delivered: [err, true] *)
| SigClosed              (* closed without a value: [nil, false] *)
| SigSilent.             (* nothing is ever delivered; the receive blocks *)

(** How the standard-output pipe ends once its chunks are consumed. *)
Inductive StreamEnd :=
| EndEOF                 (* [Read] returns [io.EOF] *)
| EndError (e : error)   (* [Read] returns another error *)
| EndPending.            (* [Read] blocks *)

Record Remote := {
  dial : option error;          (* error of [s.sshClient()], if any *)
  newSession : option error;    (* error of [sshClient.NewSession()], if any *)
  readySig : bool;              (* [sshSession.Ready()] fires *)
  doneSig : bool;               (* [sshSession.Done()] fires *)
  errorSig : ErrSignal;         (* [sshSession.Error()] *)
  stdoutChunks : list string;   (* successive results of [Stdout.Read] *)
  stdoutEnd : StreamEnd;
  colorFuncName : string        (* result of [utils.GetColorFuncName()] *)
}.

(** A server of the inventory: its name and the remote side reached
    through its connection parameters. *)
Record Server := {
  Name : string;
  remote : Remote
}.

(* ------------------------------------------------------------------ *)
(** ** The template of the multi-server relay *)

Inductive result (A : Type) :=
| Ok (a : A)
| Err (e : error).
Arguments Ok {A} a.
Arguments Err {A} e.

(** A function of a [template.FuncMap] applied to one string argument. *)
Definition ColorFunc := string -> result string.

Section Template.

(** [utils.ColorsFuncMap]: the functions a template may call, by name. *)
Variable ColorsFuncMap : string -> option ColorFunc.

(** [template.New(EmptyString).Funcs(utils.ColorsFuncMap).Parse(
      fmt.Sprintf(`{{ .Name | %s}}{{ ":" | %s}}  {{ .Value }}`, f, f))]:
    parsing fails when [f] is not a function of the map. *)
Definition Parse (f : string) : result ColorFunc :=
  match ColorsFuncMap f with
  | Some fn => Ok fn
  | None => Err ("template: :1: function " +++ f +++ " not defined")
  end.

(** [t.Execute(&output, struct{Name, Value}{...})] followed by
    [output.String()]: the two pipelines, the literal text of two spaces,
    and the value as it is. *)
Definition Execute (fn : ColorFunc) (name value : string) : result string :=
  match fn name with
  | Err e => Err e
  | Ok cname =>
      match fn ":" with
      | Err e => Err e
      | Ok csep => Ok (cname +++ csep +++ "  " +++ value)
      end
  end.

End Template.

(* ------------------------------------------------------------------ *)
(** ** [bufio.Reader.ReadString] *)

(** Outcome of one [buf.ReadString(delim)]: a line ending in the delimiter
    with a nil error, or the bytes left when the underlying reader ends. *)
Inductive ReadOutcome :=
| GotLine (line : string) (buffered : string) (src : list string)
| GotEnd (data : string).

(** [buffered] holds the bytes already taken from the underlying reader,
    [src] the chunks it will still return.  The returned line includes the
    delimiter. *)
Fixpoint ReadString (delim : ascii) (buffered : string) (src : list string)
  : ReadOutcome :=
  match Bytes.cut delim buffered with
  | Some (line, rest) => GotLine line rest src
  | None =>
      match src with
      | [] => GotEnd buffered
      | c :: src' => ReadString delim (buffered +++ c) src'
      end
  end.

(* ------------------------------------------------------------------ *)
(** ** One task: [exec] *)

Inductive Thread := ThMain | ThErr | ThOut.

Inductive Event :=
| EvSshClient (r : option error)     (* [s.sshClient()] returned *)
| EvNewSession (r : option error)    (* [sshClient.NewSession()] returned *)
| EvGoPipeExec (cmd : string)        (* [go sshSession.PipeExec(cmd)] *)
| EvSend (th : Thread) (e : error)   (* a send [errCh <- e] completed *)
| EvCtxDone                          (* [<-ctx.Done()] selected *)
| EvSessionDone                      (* [<-sshSession.Done()] selected *)
| EvClientClose                      (* [sshClient.Close()] *)
| EvSessionClose                     (* [sshSession.Close()] *)
| EvErrorRecv (r : option error)     (* [err, ok := <-sshSession.Error()] *)
| EvReady                            (* [<-sshSession.Ready()] *)
| EvWrite (s : string)               (* one write to standard output *)
| EvWaitReturn                       (* [errWg.Wait()] returned *)
| EvReturn.                          (* [exec] returned *)

(** Program counter of the goroutine that called [exec]. *)
Inductive MainPc :=
| MSshClient             (* sshClient, err := s.sshClient() *)
| MDialFail (e : error)  (* errCh <- err; return *)
| MNewSession            (* session, err := sshClient.NewSession() *)
| MSessionFail (e : error) (* errCh <- err; return, client close deferred *)
| MGoPipeExec            (* go sshSession.PipeExec(cmd) *)
| MGoErr                 (* errWg.Add(1); go func() { copy error } *)
| MGoOut                 (* go func() { print to stdout } *)
| MSelect                (* select { ctx.Done / sshSession.Done } *)
| MWait                  (* errWg.Wait() *)
| MDeferSession          (* deferred sshSession.Close() *)
| MDeferClient           (* deferred sshClient.Close() *)
| MReturned.

(** Program counter of the goroutine that copies the session error. *)
Inductive ErrPc :=
| CpIdle                 (* not started *)
| CpRecv                 (* err, ok := <-sshSession.Error() *)
| CpSend (e : error)     (* errCh <- err *)
| CpDone.                (* errWg.Done() ran *)

(** Program counter of the goroutine that prints to standard output. *)
Inductive OutPc :=
| OtIdle
| OtReady                                    (* <-sshSession.Ready() *)
| OtCopy (src : list string)                 (* io.Copy(os.Stdout, Stdout) *)
| OtParse                                    (* template ... Parse *)
| OtLoop (fn : ColorFunc) (buffered : string) (src : list string)
                                             (* the for loop *)
| OtSend (e : error)                         (* errCh <- err; break/return *)
| OtDone.

Record Task := {
  mainPc : MainPc;
  errPc : ErrPc;
  outPc : OutPc;
  errCh : option error;    (* [make(chan error, 1)]: its one-slot buffer *)
  errWg : nat;             (* counter of [errWg] *)
  trace : list Event       (* what happened so far, oldest first *)
}.

Definition newTask : Task :=
  {| mainPc := MSshClient; errPc := CpIdle; outPc := OtIdle;
     errCh := None; errWg := 0; trace := [] |}.

Definition setMain (pc : MainPc) (t : Task) : Task :=
  {| mainPc := pc; errPc := errPc t; outPc := outPc t;
     errCh := errCh t; errWg := errWg t; trace := trace t |}.

Definition setErr (pc : ErrPc) (t : Task) : Task :=
  {| mainPc := mainPc t; errPc := pc; outPc := outPc t;
     errCh := errCh t; errWg := errWg t; trace := trace t |}.

Definition setOut (pc : OutPc) (t : Task) : Task :=
  {| mainPc := mainPc t; errPc := errPc t; outPc := pc;
     errCh := errCh t; errWg := errWg t; trace := trace t |}.

Definition setCh (c : option error) (t : Task) : Task :=
  {| mainPc := mainPc t; errPc := errPc t; outPc := outPc t;
     errCh := c; errWg := errWg t; trace := trace t |}.

Definition setWg (n : nat) (t : Task) : Task :=
  {| mainPc := mainPc t; errPc := errPc t; outPc := outPc t;
     errCh := errCh t; errWg := n; trace := trace t |}.

Definition emit (ev : Event) (t : Task) : Task :=
  {| mainPc := mainPc t; errPc := errPc t; outPc := outPc t;
     errCh := errCh t; errWg := errWg t; trace := trace t ++ [ev] |}.

(** [errCh <- e] by thread [th]: completes when the slot is free, blocks
    (no transition) when it is taken. *)
Definition send (th : Thread) (e : error) (t : Task) : option Task :=
  match errCh t with
  | None => Some (emit (EvSend th e) (setCh (Some e) t))
  | Some _ => None
  end.

(** What the scheduler picks: a thread of the task, and for the final
    [select] of the main goroutine the case that fires. *)
Inductive TAction :=
| TMain      (* next statement of the main goroutine *)
| TSelCtx    (* its select takes [<-ctx.Done()] *)
| TSelDone   (* its select takes [<-sshSession.Done()] *)
| TErr       (* next statement of the error-copy goroutine *)
| TOut.      (* next statement of the stdout goroutine *)

Section Exec.

Variable ColorsFuncMap : string -> option ColorFunc.

Variable s : Server.
Variable singleServer : bool.
Variable cmd : string.

Local Abbreviation r := (remote s).

Definition main_step (t : Task) : option Task :=
  match mainPc t with
  | MSshClient =>
      match dial r with
      | Some e => Some (emit (EvSshClient (Some e)) (setMain (MDialFail e) t))
      | None => Some (emit (EvSshClient None) (setMain MNewSession t))
      end
  | MDialFail e =>
      match send ThMain e t with
      | Some t' => Some (emit EvReturn (setMain MReturned t'))
      | None => None
      end
  | MNewSession =>
      match newSession r with
      | Some e =>
          Some (emit (EvNewSession (Some e)) (setMain (MSessionFail e) t))
      | None => Some (emit (EvNewSession None) (setMain MGoPipeExec t))
      end
  | MSessionFail e =>
      match send ThMain e t with
      | Some t' => Some (setMain MDeferClient t')
      | None => None
      end
  | MGoPipeExec => Some (emit (EvGoPipeExec cmd) (setMain MGoErr t))
  | MGoErr => Some (setErr CpRecv (setWg (errWg t + 1) (setMain MGoOut t)))
  | MGoOut => Some (setOut OtReady (setMain MSelect t))
  | MSelect => None
  | MWait =>
      match errWg t with
      | 0 => Some (emit EvWaitReturn (setMain MDeferSession t))
      | S _ => None
      end
  | MDeferSession => Some (emit EvSessionClose (setMain MDeferClient t))
  | MDeferClient =>
      Some (emit EvReturn (emit EvClientClose (setMain MReturned t)))
  | MReturned => None
  end.

(** The final [select]: either case closes the client. *)
Definition select_step (fired : bool) (ev : Event) (t : Task) : option Task :=
  match mainPc t with
  | MSelect =>
      if fired
      then Some (emit EvClientClose (emit ev (setMain MWait t)))
      else None
  | _ => None
  end.

Definition err_step (t : Task) : option Task :=
  match errPc t with
  | CpIdle => None
  | CpRecv =>
      match errorSig r with
      | SigError e => Some (emit (EvErrorRecv (Some e)) (setErr (CpSend e) t))
      | SigClosed =>
          Some (emit (EvErrorRecv None)
                  (setWg (errWg t - 1) (setErr CpDone t)))
      | SigSilent => None
      end
  | CpSend e =>
      match send ThErr e t with
      | Some t' => Some (setWg (errWg t' - 1) (setErr CpDone t'))
      | None => None
      end
  | CpDone => None
  end.

Definition out_step (t : Task) : option Task :=
  match outPc t with
  | OtIdle => None
  | OtReady =>
      if readySig r
      then Some (emit EvReady
                   (setOut (if singleServer
                            then OtCopy (stdoutChunks r)
                            else OtParse) t))
      else None
  | OtCopy (c :: src) =>
      Some (setOut (OtCopy src)
              (match c with
               | EmptyString => t
               | _ => emit (EvWrite c) t
               end))
  | OtCopy [] =>
      match stdoutEnd r with
      | EndEOF | EndError _ => Some (setOut OtDone t)
      | EndPending => None
      end
  | OtParse =>
      match Parse ColorsFuncMap (colorFuncName r) with
      | Err e => Some (setOut (OtSend e) t)
      | Ok fn => Some (setOut (OtLoop fn EmptyString (stdoutChunks r)) t)
      end
  | OtLoop fn buffered src =>
      match ReadString Bytes.LF buffered src with
      | GotEnd _ =>
          match stdoutEnd r with
          | EndEOF => Some (setOut OtDone t)
          | EndError e => Some (setOut (OtSend e) t)
          | EndPending => None
          end
      | GotLine line buffered' src' =>
          match Execute fn (Name s) line with
          | Err e => Some (setOut (OtSend e) t)
          | Ok output =>
              Some (emit (EvWrite output) (setOut (OtLoop fn buffered' src') t))
          end
      end
  | OtSend e =>
      match send ThOut e t with
      | Some t' => Some (setOut OtDone t')
      | None => None
      end
  | OtDone => None
  end.

(** One transition of the task; [cancelled] is the state of [ctx]. *)
Definition exec_step (cancelled : bool) (a : TAction) (t : Task)
  : option Task :=
  match a with
  | TMain => main_step t
  | TSelCtx => select_step cancelled EvCtxDone t
  | TSelDone => select_step (doneSig r) EvSessionDone t
  | TErr => err_step t
  | TOut => out_step t
  end.

End Exec.

(** A task together with the context it observes: the schedule either
    cancels the context or lets one thread of the task move. *)
Inductive TSched :=
| SCancel
| SDo (a : TAction).

Section TaskRuns.

Variable ColorsFuncMap : string -> option ColorFunc.
Variable s : Server.
Variable singleServer : bool.
Variable cmd : string.

Definition task_step (x : TSched) (st : bool * Task) : option (bool * Task) :=
  match x with
  | SCancel => Some (true, snd st)
  | SDo a =>
      match exec_step ColorsFuncMap s singleServer cmd (fst st) a (snd st) with
      | Some t' => Some (fst st, t')
      | None => None
      end
  end.

Fixpoint task_run (sched : list TSched) (st : bool * Task)
  : option (bool * Task) :=
  match sched with
  | [] => Some st
  | x :: sched' =>
      match task_step x st with
      | Some st' => task_run sched' st'
      | None => None
      end
  end.

(** The states [exec] can be in, from its call on. *)
Definition task_reachable (st : bool * Task) : Prop :=
  exists c0 sched, task_run sched (c0, newTask) = Some st.

End TaskRuns.

(* ------------------------------------------------------------------ *)
(** ** The dispatcher: [Exec] *)

(** What runs around one call of [exec]: in multi-server mode the body of
    the goroutine of the loop, in single-server mode the [else] branch. *)
Inductive JobPc :=
| JExec       (* inside exec(ctx, server, singleServer, cmd, errCh) *)
| JSelected   (* the select on errCh after it has run *)
| JDone.      (* deferred serverWg.Done() has run *)

Record Job := {
  server : Server;
  jobPc : JobPc;
  task : Task;
  printed : list string    (* what its error report wrote to stdout *)
}.

Definition newJob (s : Server) : Job :=
  {| server := s; jobPc := JExec; task := newTask; printed := [] |}.

Inductive ExecPc :=
| DStart                           (* before host resolution *)
| DSingle                          (* single server: inside exec *)
| DSpawn (rest : list Server)      (* the range loop over servers *)
| DWait                            (* serverWg.Wait() *)
| DReturned                        (* Exec returned *)
| DExited (msg : string) (code : Z). (* the process was ended by utils.Exit *)

Record State := {
  execPc : ExecPc;
  cancelled : bool;        (* ctx is done *)
  jobs : list Job;         (* the tasks started so far, in order *)
  serverWg : nat           (* counter of serverWg *)
}.

Definition initial : State :=
  {| execPc := DStart; cancelled := false; jobs := []; serverWg := 0 |}.

(** Modelled from the spec: [utils.Exit(msg, code)] is not among the
    sources.  The specification has the entry point exit "with status 1 and
    a descriptive message when host resolution fails": the call surfaces
    [msg] and ends the process with status [code]. *)
Definition Exit (msg : string) (code : Z) (st : State) : State :=
  {| execPc := DExited msg code; cancelled := cancelled st;
     jobs := jobs st; serverWg := serverWg st |}.

Inductive Action :=
| ASignal                       (* SIGHUP, SIGINT, SIGTERM or SIGQUIT: cancel() *)
| AExec                         (* next statement of Exec itself *)
| ATask (i : nat) (a : TAction) (* a thread of the i-th task *)
| ASelect (i : nat)             (* the select on errCh after the i-th exec *)
| AWgDone (i : nat).            (* deferred serverWg.Done() of goroutine i *)

(** The text of an error report: [Print(err)] in single-server mode,
    [Printf("%s:  %s", server.Name, err)] otherwise, both through
    [color.New(color.BgRed, color.FgHiWhite)]. *)
Definition report (bgRedHiWhite : string -> string) (singleServer : bool)
  (s : Server) (err : error) : string :=
  if singleServer then bgRedHiWhite err
  else bgRedHiWhite (Name s +++ ":  " +++ err).

Section Dispatcher.

Variable ColorsFuncMap : string -> option ColorFunc.

(** [ContextCfg.Servers.FindServerByName] and [FindServersByTag]. *)
Variable FindServerByName : string -> option Server.
Variable FindServersByTag : string -> list Server.

(** [color.New(color.BgRed, color.FgHiWhite)] applied to a text. *)
Variable bgRedHiWhite : string -> string.

Variable tagOrName : string.
Variable cmd : string.
Variable singleServer : bool.

Definition setExecPc (pc : ExecPc) (st : State) : State :=
  {| execPc := pc; cancelled := cancelled st;
     jobs := jobs st; serverWg := serverWg st |}.

Definition setJobs (js : list Job) (st : State) : State :=
  {| execPc := execPc st; cancelled := cancelled st;
     jobs := js; serverWg := serverWg st |}.

Definition setServerWg (n : nat) (st : State) : State :=
  {| execPc := execPc st; cancelled := cancelled st;
     jobs := jobs st; serverWg := n |}.

(** Statements of [Exec] itself. *)
Definition dispatch_step (st : State) : option State :=
  match execPc st with
  | DStart =>
      if singleServer then
        match FindServerByName tagOrName with
        | None => Some (Exit "server not found" 1 st)
        | Some s => Some (setJobs [newJob s] (setExecPc DSingle st))
        end
      else
        let servers := FindServersByTag tagOrName in
        match servers with
        | [] => Some (Exit "tagged server not found" 1 st)
        | _ => Some (setServerWg (length servers) (setExecPc (DSpawn servers) st))
        end
  | DSingle => None
  | DSpawn (s :: rest) =>
      Some (setJobs (jobs st ++ [newJob s]) (setExecPc (DSpawn rest) st))
  | DSpawn [] => Some (setExecPc DWait st)
  | DWait =>
      match serverWg st with
      | 0 => Some (setExecPc DReturned st)
      | S _ => None
      end
  | DReturned => None
  | DExited _ _ => None
  end.

(** The non-blocking [select] on [errCh] once [exec] has returned. *)
Definition select_errCh (j : Job) : option Job :=
  match jobPc j, mainPc (task j) with
  | JExec, MReturned =>
      match errCh (task j) with
      | Some err =>
          Some {| server := server j; jobPc := JSelected;
                  task := setCh None (task j);
                  printed :=
                    printed j
                    ++ [report bgRedHiWhite singleServer (server j) err;
                        Bytes.nl] |}
      | None =>
          Some {| server := server j; jobPc := JSelected;
                  task := task j; printed := printed j |}
      end
  | _, _ => None
  end.

Definition step (a : Action) (st : State) : option State :=
  match execPc st with
  | DExited _ _ => None
  | _ =>
      match a with
      | ASignal =>
          Some {| execPc := execPc st; cancelled := true;
                  jobs := jobs st; serverWg := serverWg st |}
      | AExec => dispatch_step st
      | ATask i ta =>
          match jobs st !! i with
          | Some j =>
              match exec_step ColorsFuncMap (server j) singleServer cmd
                      (cancelled st) ta (task j) with
              | Some t' =>
                  Some (setJobs (<[i := {| server := server j; jobPc := jobPc j;
                                          task := t'; printed := printed j |}]>
                                   (jobs st)) st)
              | None => None
              end
          | None => None
          end
      | ASelect i =>
          match jobs st !! i with
          | Some j =>
              match select_errCh j with
              | Some j' =>
                  Some (setJobs (<[i := j']> (jobs st))
                          (if singleServer then setExecPc DReturned st else st))
              | None => None
              end
          | None => None
          end
      | AWgDone i =>
          if singleServer then None
          else
            match jobs st !! i with
            | Some j =>
                match jobPc j with
                | JSelected =>
                    Some (setServerWg (serverWg st - 1)
                            (setJobs (<[i := {| server := server j; jobPc := JDone;
                                               task := task j;
                                               printed := printed j |}]>
                                        (jobs st)) st))
                | _ => None
                end
            | None => None
            end
      end
  end.

Fixpoint run (sched : list Action) (st : State) : option State :=
  match sched with
  | [] => Some st
  | a :: sched' =>
      match step a st with
      | Some st' => run sched' st'
      | None => None
      end
  end.

Definition reachable (st : State) : Prop :=
  exists sched, run sched initial = Some st.

End Dispatcher.

(* ------------------------------------------------------------------ *)
(** ** Reading traces *)

(** The texts written to standard output, in order. *)
Fixpoint writes (tr : list Event) : list string :=
  match tr with
  | [] => []
  | EvWrite w :: tr' => w :: writes tr'
  | _ :: tr' => writes tr'
  end.

(** The errors whose send on [errCh] completed, with their sender. *)
Fixpoint sends (tr : list Event) : list (Thread * error) :=
  match tr with
  | [] => []
  | EvSend th e :: tr' => (th, e) :: sends tr'
  | _ :: tr' => sends tr'
  end.

(** Event [a] occurs strictly before an occurrence of [b]. *)
Definition before (a b : Event) (tr : list Event) : Prop :=
  exists l1 l2 l3, tr = l1 ++ a :: l2 ++ b :: l3.

(** The sends that are under way: a thread stands at [errCh <- e]. *)
Definition pending_sends (t : Task) : list (Thread * error) :=
  match mainPc t with
  | MDialFail e | MSessionFail e => [(ThMain, e)]
  | _ => []
  end ++
  match errPc t with
  | CpSend e => [(ThErr, e)]
  | _ => []
  end ++
  match outPc t with
  | OtSend e => [(ThOut, e)]
  | _ => []
  end.

(* ------------------------------------------------------------------ *)
(** ** State sets used in the statements *)

(** The states a task goes through when [s.sshClient()] fails with [e]. *)
Definition dial_failure_states (e : error) (t : Task) : Prop :=
  t = newTask
  \/ t = {| mainPc := MDialFail e; errPc := CpIdle; outPc := OtIdle;
            errCh := None; errWg := 0;
            trace := [EvSshClient (Some e)] |}
  \/ t = {| mainPc := MReturned; errPc := CpIdle; outPc := OtIdle;
            errCh := Some e; errWg := 0;
            trace := [EvSshClient (Some e); EvSend ThMain e; EvReturn] |}.

(** The states a task goes through when the client is obtained and
    [sshClient.NewSession()] fails with [e]. *)
Definition session_failure_states (e : error) (t : Task) : Prop :=
  t = newTask
  \/ t = {| mainPc := MNewSession; errPc := CpIdle; outPc := OtIdle;
            errCh := None; errWg := 0;
            trace := [EvSshClient None] |}
  \/ t = {| mainPc := MSessionFail e; errPc := CpIdle; outPc := OtIdle;
            errCh := None; errWg := 0;
            trace := [EvSshClient None; EvNewSession (Some e)] |}
  \/ t = {| mainPc := MDeferClient; errPc := CpIdle; outPc := OtIdle;
            errCh := Some e; errWg := 0;
            trace := [EvSshClient None; EvNewSession (Some e);
                      EvSend ThMain e] |}
  \/ t = {| mainPc := MReturned; errPc := CpIdle; outPc := OtIdle;
            errCh := Some e; errWg := 0;
            trace := [EvSshClient None; EvNewSession (Some e);
                      EvSend ThMain e; EvClientClose; EvReturn] |}.


(* ------------------------------------------------------------------ *)
(** ** Bookkeeping of the goroutines of a task *)

(** Until their [go] statement has run, the two goroutines do not exist. *)
Definition idle_inv (t : Task) : Prop :=
  match mainPc t with
  | MSshClient | MDialFail _ | MNewSession | MSessionFail _
  | MGoPipeExec | MGoErr => errPc t = CpIdle /\ outPc t = OtIdle
  | MGoOut => errPc t <> CpIdle /\ outPc t = OtIdle
  | MSelect | MWait | MDeferSession => errPc t <> CpIdle
  | MDeferClient | MReturned => True
  end.

(** [errWg] counts the error-copy goroutine while it runs. *)
Definition wg_inv (t : Task) : Prop :=
  errWg t = match errPc t with
            | CpIdle | CpDone => 0
            | CpRecv | CpSend _ => 1
            end.

(* ------------------------------------------------------------------ *)
(** ** The relay of standard output, against the stream *)

(** Single-server mode: what [io.Copy] has written so far and what it still
    has to read make up the stream. *)
Definition copy_inv (r : Remote) (t : Task) : Prop :=
  match outPc t with
  | OtIdle | OtReady => writes (trace t) = []
  | OtCopy src =>
      Bytes.cat (writes (trace t)) +++ Bytes.cat src
      = Bytes.cat (stdoutChunks r)
  | OtDone => Bytes.cat (writes (trace t)) = Bytes.cat (stdoutChunks r)
  | OtParse | OtLoop _ _ _ | OtSend _ => False
  end.


(** The errors sent on [errCh] by the goroutine that prints to stdout. *)
Fixpoint out_sends (tr : list Event) : list error :=
  match tr with
  | [] => []
  | EvSend ThOut e :: tr' => e :: out_sends tr'
  | _ :: tr' => out_sends tr'
  end.




(* ------------------------------------------------------------------ *)
(** ** The rendering as the specification words it *)



(* ------------------------------------------------------------------ *)
(** ** Concrete inventories and runs *)

Module Demo.

Definition esc : string := String (ascii_of_nat 27) EmptyString.

(** A colour function in the manner of [color.New(color.FgRed).SprintFunc()]. *)
Definition red : ColorFunc :=
  fun text => Ok (esc +++ "[31m" +++ text +++ esc +++ "[0m").

Definition green : ColorFunc :=
  fun text => Ok (esc +++ "[32m" +++ text +++ esc +++ "[0m").

Definition colors (f : string) : option ColorFunc :=
  if String.eqb f "red" then Some red
  else if String.eqb f "green" then Some green
  else None.

Definition bgRedHiWhite (text : string) : string :=
  esc +++ "[41;97m" +++ text +++ esc +++ "[0m".

(** A remote side on which everything succeeds. *)
Definition healthy (chunks : list string) : Remote :=
  {| dial := None; newSession := None;
     readySig := true; doneSig := true; errorSig := SigClosed;
     stdoutChunks := chunks; stdoutEnd := EndEOF;
     colorFuncName := "red" |}.

Definition web1 : Server :=
  {| Name := "web1"; remote := healthy ["hi" +++ Bytes.nl] |}.

(** Output arriving in pieces that do not follow the lines, with an
    unfinished last line. *)
Definition web2 : Server :=
  {| Name := "web2";
     remote := healthy ["h"; "i" +++ Bytes.nl +++ "yo"; "u" +++ Bytes.nl +++ "res"] |}.

(** The connection cannot be opened. *)
Definition down : Server :=
  {| Name := "down";
     remote :=
       {| dial := Some "dial tcp: i/o timeout"; newSession := None;
          readySig := false; doneSig := false; errorSig := SigSilent;
          stdoutChunks := []; stdoutEnd := EndPending;
          colorFuncName := "green" |} |}.

(** The connection opens, the session does not. *)
Definition nosession : Server :=
  {| Name := "nosession";
     remote :=
       {| dial := None; newSession := Some "ssh: rejected: administratively prohibited";
          readySig := false; doneSig := false; errorSig := SigSilent;
          stdoutChunks := []; stdoutEnd := EndPending;
          colorFuncName := "green" |} |}.

(** The command fails remotely: the session reports an error at its end. *)
Definition failing : Server :=
  {| Name := "failing";
     remote :=
       {| dial := None; newSession := None;
          readySig := true; doneSig := true;
          errorSig := SigError "Process exited with status 1";
          stdoutChunks := ["boom" +++ Bytes.nl]; stdoutEnd := EndEOF;
          colorFuncName := "green" |} |}.

(** The connection breaks in the middle of the output: the read of the
    pipe fails and the session reports an error as well. *)
Definition broken : Server :=
  {| Name := "broken";
     remote :=
       {| dial := None; newSession := None;
          readySig := true; doneSig := true;
          errorSig := SigError "wait: remote command exited without exit status";
          stdoutChunks := ["par"]; stdoutEnd := EndError "read tcp: connection reset by peer";
          colorFuncName := "red" |} |}.

Definition inventory : list Server :=
  [web1; web2; down; nosession; failing; broken].

Definition byName (name : string) : option Server :=
  List.find (fun sv => String.eqb (Name sv) name) inventory.

(** Tags of the demonstration inventory. *)
Definition byTag (tag : string) : list Server :=
  if String.eqb tag "web" then [web1; web2]
  else if String.eqb tag "mixed" then [web1; down; web2]
  else if String.eqb tag "bad" then [down; web1]
  else [].

(** The main goroutine of a task up to its [select]. *)
Definition toSelect : list TAction := [TMain; TMain; TMain; TMain; TMain].

(** A whole run of [exec] on [web1]. *)
Definition fullRun : list TSched :=
  map SDo (toSelect ++ [TOut; TOut; TOut; TOut; TErr; TSelDone;
                        TMain; TMain; TMain]).

(** A run on [failing] that ends on cancellation. *)
Definition cancelledRun : list TSched :=
  map SDo toSelect ++ [SDo TOut; SCancel; SDo TSelCtx;
                       SDo TErr; SDo TErr; SDo TMain; SDo TMain; SDo TMain].

(** A run on [broken]: the relay sends the read error, then the copy of
    the session error stands at its send. *)
Definition twoErrors : list TSched :=
  map SDo (toSelect ++ [TOut; TOut; TOut; TOut; TErr; TSelDone]).

(** The same runs seen from [Exec]: the threads of the [i]-th task. *)
Definition onTask (i : nat) (l : list TAction) : list Action :=
  map (ATask i) l.

Definition healthyTask : list TAction :=
  toSelect ++ [TOut; TOut; TOut; TOut; TOut; TErr; TSelDone;
               TMain; TMain; TMain].

(** [Exec("mixed", cmd, false)]: three servers, the second one is down.
    The tasks run one after the other here; the dispatcher has started
    them all before. *)
Definition mixedRun : list Action :=
  [AExec; AExec; AExec; AExec; AExec]
  ++ onTask 1 [TMain; TMain] ++ [ASelect 1; AWgDone 1]
  ++ onTask 0 (toSelect ++ [TOut; TOut; TOut; TOut; TErr; TSelDone;
                            TMain; TMain; TMain])
  ++ [ASelect 0; AWgDone 0]
  ++ onTask 2 healthyTask ++ [ASelect 2; AWgDone 2]
  ++ [AExec].

(** [Exec("bad", cmd, false)]: the first server is down and its error is
    reported while the task of the second has not begun. *)
Definition earlyReport : list Action :=
  [AExec; AExec; AExec] ++ onTask 0 [TMain; TMain] ++ [ASelect 0].

(** [Exec("web1", cmd, true)]. *)
Definition singleRun : list Action :=
  [AExec]
  ++ onTask 0 (toSelect ++ [TOut; TOut; TOut; TErr; TSelDone;
                            TMain; TMain; TMain])
  ++ [ASelect 0].

(** The state a run ends in; the initial state when the run is not
    possible. *)
Definition taskEnd (s : Server) (singleServer : bool) (sched : list TSched)
  : bool * Task :=
  match task_run colors s singleServer "uptime" sched (false, newTask) with
  | Some st => st
  | None => (false, newTask)
  end.

Definition execEnd (tagOrName : string) (singleServer : bool)
  (sched : list Action) : State :=
  match run colors byName byTag bgRedHiWhite tagOrName "uptime" singleServer
          sched initial with
  | Some st => st
  | None => initial
  end.

Definition web1Lines : bool * Task :=
  Eval vm_compute in taskEnd web1 false fullRun.


Definition failingCancelled : bool * Task :=
  Eval vm_compute in taskEnd failing false cancelledRun.

Definition downEnd : bool * Task :=
  Eval vm_compute in taskEnd down false [SDo TMain; SDo TMain].

Definition nosessionEnd : bool * Task :=
  Eval vm_compute in taskEnd nosession false [SDo TMain; SDo TMain; SDo TMain].

(** [broken] after [twoErrors]: the slot of [errCh] holds the read error,
    the error-copy goroutine stands at its send, the main goroutine at
    [errWg.Wait()]. *)
Definition brokenStuck : bool * Task :=
  Eval vm_compute in taskEnd broken false twoErrors.

Definition mixedEnd : State :=
  Eval vm_compute in execEnd "mixed" false mixedRun.

Definition earlyEnd : State :=
  Eval vm_compute in execEnd "bad" false earlyReport.

Definition unresolvedEnd : State :=
  Eval vm_compute in execEnd "nonexistent" false [AExec].

End Demo.

(* ------------------------------------------------------------------ *)
(** ** The relay as the specification words it *)


(* ------------------------------------------------------------------ *)
(** ** The end of a task *)

(** The final [select] has fired: its event is in the trace, followed at
    once by the first close of the client. *)
Definition selected (tr : list Event) : Prop :=
  exists sel l1 l2,
    (sel = EvCtxDone \/ sel = EvSessionDone)
    /\ tr = l1 ++ sel :: EvClientClose :: l2
    /\ ~ In EvClientClose l1.

(** What the error-copy goroutine has done, by its program counter. *)
Definition copy_evidence (r : Remote) (t : Task) : Prop :=
  match errPc t with
  | CpIdle | CpRecv => True
  | CpSend e => errorSig r = SigError e /\ In (EvErrorRecv (Some e)) (trace t)
  | CpDone =>
      (errorSig r = SigClosed /\ In (EvErrorRecv None) (trace t))
      \/ (exists e, errorSig r = SigError e
                    /\ before (EvErrorRecv (Some e)) (EvSend ThErr e) (trace t)
                    /\ errCh t = Some e)
  end.

(** [errWg.Wait()] has returned: after the close of the client, after the
    receive on the error signal, and after the send of its value if it
    delivered one. *)
Definition waited (r : Remote) (t : Task) : Prop :=
  errPc t = CpDone
  /\ before EvClientClose EvWaitReturn (trace t)
  /\ (exists x, before (EvErrorRecv x) EvWaitReturn (trace t))
  /\ (forall e, errorSig r = SigError e ->
      before (EvSend ThErr e) EvWaitReturn (trace t)).

(** Where the main goroutine stands on the path on which both the client
    and the session were obtained. *)
Definition finish_inv (r : Remote) (t : Task) : Prop :=
  match mainPc t with
  | MDialFail _ | MSessionFail _ => False
  | MSshClient | MNewSession | MGoPipeExec | MGoErr | MGoOut | MSelect =>
      ~ In EvClientClose (trace t)
  | MWait => selected (trace t)
  | MDeferSession | MDeferClient => selected (trace t) /\ waited r t
  | MReturned =>
      selected (trace t) /\ waited r t
      /\ before EvWaitReturn EvReturn (trace t)
  end.

(* ------------------------------------------------------------------ *)
(** ** A task on which nothing else fails *)

(** The relay of standard output meets no error: in single-server mode it
    reports none; in multi-server mode the template parses, its colour
    function accepts the server name and the colon, and the pipe does not
    end on a read error. *)
Definition quiet_stdout (ColorsFuncMap : string -> option ColorFunc)
  (s : Server) (singleServer : bool) : Prop :=
  singleServer = true
  \/ ((forall e, stdoutEnd (remote s) <> EndError e)
      /\ exists fn cname csep,
           Parse ColorsFuncMap (colorFuncName (remote s)) = Ok fn
           /\ fn (Name s) = Ok cname /\ fn ":" = Ok csep).

(** The stdout goroutine never stands at a send. *)
Definition out_quiet (ColorsFuncMap : string -> option ColorFunc)
  (s : Server) (singleServer : bool) (t : Task) : Prop :=
  match outPc t with
  | OtSend _ => False
  | OtParse => singleServer = false
  | OtLoop fn _ _ =>
      singleServer = false
      /\ Parse ColorsFuncMap (colorFuncName (remote s)) = Ok fn
  | _ => True
  end.

(* ------------------------------------------------------------------ *)
(** ** Invariants of the dispatcher *)

(** The goroutines of the loop that have not yet called [serverWg.Done()]. *)
Fixpoint running (js : list Job) : nat :=
  match js with
  | [] => 0
  | j :: js' =>
      match jobPc j with
      | JDone => running js'
      | _ => S (running js')
      end
  end.

(** The slot of [errCh] holds an error only if some thread sent it. *)
Definition errCh_justified (t : Task) : Prop :=
  forall e, errCh t = Some e -> exists th, In (EvSend th e) (trace t).

(** What holds of each task started by [Exec]. *)
Definition job_inv (bgRedHiWhite : string -> string) (singleServer : bool)
  (j : Job) : Prop :=
  errCh_justified (task j)
  /\ match jobPc j with
     | JExec => printed j = []
     | JSelected | JDone =>
         mainPc (task j) = MReturned
         /\ (printed j = []
             \/ exists th e,
                  In (EvSend th e) (trace (task j))
                  /\ printed j =
                     [report bgRedHiWhite singleServer (server j) e; Bytes.nl])
     end.

(** Where [Exec] stands, against the inventory. *)
Definition exec_inv (FindServerByName : string -> option Server)
  (FindServersByTag : string -> list Server)
  (tagOrName : string) (singleServer : bool) (st : State) : Prop :=
  if singleServer then
    match execPc st with
    | DStart => jobs st = []
    | DSingle =>
        exists j, jobs st = [j] /\ jobPc j = JExec
                  /\ FindServerByName tagOrName = Some (server j)
    | DReturned =>
        exists j, jobs st = [j] /\ jobPc j = JSelected
                  /\ FindServerByName tagOrName = Some (server j)
    | DExited msg code =>
        jobs st = [] /\ FindServerByName tagOrName = None
        /\ msg = "server not found" /\ code = 1%Z
    | DSpawn _ | DWait => False
    end
  else
    let servers := FindServersByTag tagOrName in
    match execPc st with
    | DStart => jobs st = [] /\ serverWg st = 0
    | DSingle => False
    | DSpawn rest =>
        servers <> [] /\ (server <$> jobs st) ++ rest = servers
        /\ serverWg st = length rest + running (jobs st)
    | DWait =>
        servers <> [] /\ server <$> jobs st = servers
        /\ serverWg st = running (jobs st)
    | DReturned =>
        servers <> [] /\ server <$> jobs st = servers
        /\ running (jobs st) = 0
    | DExited msg code =>
        jobs st = [] /\ servers = []
        /\ msg = "tagged server not found" /\ code = 1%Z
    end.


(* ------------------------------------------------------------------ *)
(** ** More readings of a trace *)

(** How many times [sshClient.Close()] ran. *)
Fixpoint client_closes (tr : list Event) : nat :=
  match tr with
  | [] => 0
  | EvClientClose :: tr' => S (client_closes tr')
  | _ :: tr' => client_closes tr'
  end.

(** How many times [sshSession.Close()] ran. *)
Fixpoint session_closes (tr : list Event) : nat :=
  match tr with
  | [] => 0
  | EvSessionClose :: tr' => S (session_closes tr')
  | _ :: tr' => session_closes tr'
  end.

(** The commands handed to [sshSession.PipeExec], in order. *)
Fixpoint started (tr : list Event) : list string :=
  match tr with
  | [] => []
  | EvGoPipeExec c :: tr' => c :: started tr'
  | _ :: tr' => started tr'
  end.

(** The one slot of [errCh] against the sends completed so far, while no
    one receives: empty and nothing sent, or full with the only error
    sent. *)
Definition slot_inv (t : Task) : Prop :=
  (errCh t = None /\ sends (trace t) = [])
  \/ (exists th e, errCh t = Some e /\ sends (trace t) = [(th, e)]).

(** The closes made so far, by the place of the main goroutine, on the path
    on which both the client and the session were obtained. *)
Definition closes_inv (t : Task) : Prop :=
  match mainPc t with
  | MDialFail _ | MSessionFail _ => False
  | MSshClient | MNewSession | MGoPipeExec | MGoErr | MGoOut | MSelect =>
      client_closes (trace t) = 0 /\ session_closes (trace t) = 0
  | MWait | MDeferSession =>
      client_closes (trace t) = 1 /\ session_closes (trace t) = 0
  | MDeferClient =>
      client_closes (trace t) = 1 /\ session_closes (trace t) = 1
      /\ before EvClientClose EvSessionClose (trace t)
  | MReturned =>
      client_closes (trace t) = 2 /\ session_closes (trace t) = 1
      /\ before EvClientClose EvSessionClose (trace t)
  end.

(** The start of the remote command, by the place of the main goroutine. *)
Definition started_inv (cmd : string) (t : Task) : Prop :=
  match mainPc t with
  | MSshClient | MDialFail _ | MNewSession | MSessionFail _ =>
      started (trace t) = []
  | MGoPipeExec =>
      started (trace t) = [] /\ In (EvNewSession None) (trace t)
  | MGoErr | MGoOut | MSelect | MWait | MDeferSession =>
      started (trace t) = [cmd]
      /\ before (EvNewSession None) (EvGoPipeExec cmd) (trace t)
  | MDeferClient | MReturned =>
      started (trace t) = []
      \/ (started (trace t) = [cmd]
          /\ before (EvNewSession None) (EvGoPipeExec cmd) (trace t))
  end.

(** The relay of standard output before and after the ready signal. *)
Definition ready_inv (r : Remote) (t : Task) : Prop :=
  match outPc t with
  | OtIdle | OtReady => writes (trace t) = [] /\ out_sends (trace t) = []
  | _ => In EvReady (trace t) /\ readySig r = true
  end.

(** The relay of standard output has stopped: it stands at the send of its
    error or has ended. *)
Definition relay_stopped (t : Task) : Prop :=
  match outPc t with
  | OtSend _ | OtDone => True
  | _ => False
  end.

(* ------------------------------------------------------------------ *)
(** ** A schedule that ends a task *)

(** What is left to the error-copy goroutine when the signal yields. *)
Definition copy_rest (sig : ErrSignal) (ep : ErrPc) : list TAction :=
  match ep, sig with
  | CpRecv, SigError _ => [TErr; TErr]
  | CpRecv, _ => [TErr]
  | CpSend _, _ => [TErr]
  | _, _ => []
  end.

(** From a state of the main goroutine [mp] and of the error-copy goroutine
    [ep], the statements that bring [exec] to its return: the main
    goroutine up to its [select], the case [sel] of the [select], the
    error-copy goroutine to its end, the wait and the deferred calls. *)
Definition finishing (sig : ErrSignal) (sel : TAction)
  (mp : MainPc) (ep : ErrPc) : list TAction :=
  let tail := [TMain; TMain; TMain] in
  match mp with
  | MSshClient =>
      [TMain; TMain; TMain; TMain; TMain] ++ sel :: copy_rest sig CpRecv ++ tail
  | MNewSession =>
      [TMain; TMain; TMain; TMain] ++ sel :: copy_rest sig CpRecv ++ tail
  | MGoPipeExec =>
      [TMain; TMain; TMain] ++ sel :: copy_rest sig CpRecv ++ tail
  | MGoErr => [TMain; TMain] ++ sel :: copy_rest sig CpRecv ++ tail
  | MGoOut => TMain :: sel :: copy_rest sig ep ++ tail
  | MSelect => sel :: copy_rest sig ep ++ tail
  | MWait => copy_rest sig ep ++ tail
  | MDeferSession => [TMain; TMain]
  | MDeferClient => [TMain]
  | MReturned | MDialFail _ | MSessionFail _ => []
  end.

(** The slot of [errCh] stays free for the error-copy goroutine. *)
Definition slot_free (t : Task) : Prop :=
  match errPc t with
  | CpDone => True
  | _ => errCh t = None
  end.

(* ------------------------------------------------------------------ *)
(** ** The report against the sends *)

(** While [exec] runs nothing is printed and the slot of [errCh] matches
    the sends; afterwards what was printed, if anything, is the report of
    the first error sent. *)
Definition report_inv (bgRedHiWhite : string -> string) (singleServer : bool)
  (j : Job) : Prop :=
  match jobPc j with
  | JExec => printed j = [] /\ slot_inv (task j)
  | JSelected | JDone =>
      (printed j = [] /\ errCh_justified (task j))
      \/ exists th e rest,
           printed j =
             [report bgRedHiWhite singleServer (server j) e; Bytes.nl]
           /\ sends (trace (task j)) = (th, e) :: rest
  end.

(* ------------------------------------------------------------------ *)
(** ** The single-server relay to the end of the stream *)

(** On the path on which both the client and the session were obtained,
    the goroutine that prints to stdout exists from its [go] statement
    on. *)
Definition relay_started (t : Task) : Prop :=
  match mainPc t with
  | MDialFail _ | MSessionFail _ => False
  | MSshClient | MNewSession | MGoPipeExec | MGoErr | MGoOut =>
      outPc t = OtIdle
  | MSelect | MWait | MDeferSession | MDeferClient | MReturned =>
      outPc t <> OtIdle
  end.

(** The statements of the main goroutine up to and including the [go]
    statement of the goroutine that prints to stdout. *)
Definition to_relay (pc : MainPc) : nat :=
  match pc with
  | MSshClient => 5
  | MNewSession => 4
  | MGoPipeExec => 3
  | MGoErr => 2
  | MGoOut => 1
  | _ => 0
  end.

(** A schedule that lets [io.Copy] run to the end of a stream of chunks
    [chunks]: the main goroutine until the relay exists, the receive on
    the ready signal, one read and write per chunk left, and the read
    that ends the copy.  Once the relay exists, no other goroutine takes
    part. *)
Definition copying (chunks : list string) (t : Task) : list TSched :=
  match outPc t with
  | OtIdle =>
      (repeat (SDo TMain) (to_relay (mainPc t)) ++ [SDo TOut])
      ++ repeat (SDo TOut) (S (length chunks))
  | OtReady => [SDo TOut] ++ repeat (SDo TOut) (S (length chunks))
  | OtCopy src => repeat (SDo TOut) (S (length src))
  | _ => []
  end.

(** C6 as the specification words it: when [Exec] has returned, the bytes
    written to standard output are the bytes of the remote stream. *)
Definition passthrough_as_specified (st : State) : Prop :=
  execPc st = DReturned ->
  Forall (fun j =>
            Bytes.cat (writes (trace (task j)))
            = Bytes.cat (stdoutChunks (remote (server j))))
    (jobs st).

(* ------------------------------------------------------------------ *)
(** ** More concrete runs *)

Module Cases.

(** A session whose error signal never yields. *)
Definition silent : Server :=
  {| Name := "silent";
     remote :=
       {| dial := None; newSession := None;
          readySig := true; doneSig := true; errorSig := SigSilent;
          stdoutChunks := ["ok" +++ Bytes.nl]; stdoutEnd := EndEOF;
          colorFuncName := "green" |} |}.

(** [silent] after a cancellation: the main goroutine has closed the
    client and stands at [errWg.Wait()]. *)
Definition silentRun : list TSched :=
  map SDo Demo.toSelect ++ [SCancel; SDo TSelCtx].

Definition silentWaiting : bool * Task :=
  Eval vm_compute in Demo.taskEnd silent false silentRun.

(** [Demo.broken] when its relay has just ended on the read error. *)
Definition brokenRelayRun : list TSched :=
  map SDo (Demo.toSelect ++ [TOut; TOut; TOut; TOut]).

Definition brokenRelayEnd : bool * Task :=
  Eval vm_compute in Demo.taskEnd Demo.broken false brokenRelayRun.

(** [Demo.failing] when the main goroutine has reached its [select] and
    the relay has begun. *)
Definition failingRun : list TSched :=
  map SDo (Demo.toSelect ++ [TOut]).

Definition failingAtSelect : bool * Task :=
  Eval vm_compute in Demo.taskEnd Demo.failing false failingRun.


(** [Exec("mixed", cmd, false)] interrupted by a signal while the tasks
    of the two healthy servers stand at their [select]; both then close
    their client on cancellation. *)
Definition interruptedRun : list Action :=
  [AExec; AExec; AExec; AExec; AExec]
  ++ Demo.onTask 0 Demo.toSelect ++ Demo.onTask 2 Demo.toSelect
  ++ [ASignal; ATask 0 TSelCtx; ATask 2 TSelCtx].

Definition interruptedEnd : State :=
  Eval vm_compute in Demo.execEnd "mixed" false interruptedRun.

(** The state after the goroutine of [down] has called
    [serverWg.Done()] in [Demo.earlyEnd]. *)
Definition earlyDone : State :=
  Eval vm_compute in
    match step Demo.colors Demo.byName Demo.byTag Demo.bgRedHiWhite
            "bad" "uptime" false (AWgDone 0) Demo.earlyEnd with
    | Some st => st
    | None => initial
    end.

(** [exec] on [Demo.web2] in single-server mode when the session signals
    its end before the goroutine that prints to stdout has run: the task
    returns, the goroutine still stands at the ready signal. *)
Definition unreadRun : list TAction :=
  Demo.toSelect ++ [TErr; TSelDone; TMain; TMain; TMain].

Definition unreadTask : bool * Task :=
  Eval vm_compute in Demo.taskEnd Demo.web2 true (map SDo unreadRun).

(** [Exec("web1", cmd, true)] on such a run, at its return. *)
Definition unreadEnd : State :=
  Eval vm_compute in
    Demo.execEnd "web1" true ([AExec] ++ Demo.onTask 0 unreadRun ++ [ASelect 0]).

(** An inventory with one more tag, for a server that is down and
    [Demo.broken]. *)
Definition byTag (tag : string) : list Server :=
  if String.eqb tag "flaky" then [Demo.down; Demo.broken]
  else Demo.byTag tag.

(** [Exec("flaky", cmd, false)]: the error of the server that is down is
    reported and its goroutine ends; the task of [Demo.broken] runs as in
    [Demo.twoErrors]. *)
Definition flakyRun : list Action :=
  [AExec; AExec; AExec; AExec]
  ++ Demo.onTask 0 [TMain; TMain] ++ [ASelect 0; AWgDone 0]
  ++ Demo.onTask 1 (Demo.toSelect
                    ++ [TOut; TOut; TOut; TOut; TErr; TSelDone]).

Definition flakyStuck : State :=
  Eval vm_compute in
    match run Demo.colors Demo.byName byTag Demo.bgRedHiWhite
            "flaky" "uptime" false flakyRun initial with
    | Some st => st
    | None => initial
    end.

(** [flakyStuck] once a signal has cancelled the context. *)
Definition flakyCancelled : State :=
  Eval vm_compute in
    {| execPc := execPc flakyStuck; cancelled := true;
       jobs := jobs flakyStuck; serverWg := serverWg flakyStuck |}.

End Cases.
(* ================================================================== *)
(** * Properties *)

(** ** Basic facts *)

Lemma before_app (a b : Event) (tr l : list Event) :
  before a b tr -> before a b (tr ++ l).
Proof.
  intros (l1 & l2 & l3 & ->).
  exists l1, l2, (l3 ++ l).
  rewrite <- !app_assoc. simpl. rewrite <- app_assoc. reflexivity.
Qed.

Lemma before_snoc (a b : Event) (tr : list Event) :
  In a tr -> before a b (tr ++ [b]).
Proof.
  intros Hin. apply in_split in Hin as (l1 & l2 & ->).
  exists l1, l2, []. rewrite <- app_assoc. reflexivity.
Qed.

Lemma before_In_l (a b : Event) (tr : list Event) :
  before a b tr -> In a tr.
Proof.
  intros (l1 & l2 & l3 & ->). apply in_or_app. right. left. reflexivity.
Qed.

Lemma before_In_r (a b : Event) (tr : list Event) :
  before a b tr -> In b tr.
Proof.
  intros (l1 & l2 & l3 & ->). apply in_or_app. right. right.
  apply in_or_app. right. left. reflexivity.
Qed.

Lemma writes_app (l1 l2 : list Event) :
  writes (l1 ++ l2) = writes l1 ++ writes l2.
Proof.
  induction l1 as [|ev l1 IH]; simpl; [reflexivity|].
  destruct ev; simpl; rewrite ?IH; reflexivity.
Qed.

Lemma sends_app (l1 l2 : list Event) :
  sends (l1 ++ l2) = sends l1 ++ sends l2.
Proof.
  induction l1 as [|ev l1 IH]; simpl; [reflexivity|].
  destruct ev; simpl; rewrite ?IH; reflexivity.
Qed.

Lemma send_inv (th : Thread) (e : error) (t t' : Task) :
  send th e t = Some t' ->
  errCh t = None /\ t' = emit (EvSend th e) (setCh (Some e) t).
Proof.
  unfold send. destruct (errCh t); [discriminate|].
  intros [= <-]. split; reflexivity.
Qed.

(** *** Byte strings *)

Lemma append_nil_r (a : string) : a +++ EmptyString = a.
Proof. induction a as [|c a IH]; simpl; [reflexivity | now rewrite IH]. Qed.

Lemma append_assoc (a b c : string) : (a +++ b) +++ c = a +++ b +++ c.
Proof. induction a as [|x a IH]; simpl; [reflexivity | now rewrite IH]. Qed.

Lemma cat_app (l1 l2 : list string) :
  Bytes.cat (l1 ++ l2) = Bytes.cat l1 +++ Bytes.cat l2.
Proof.
  induction l1 as [|x l1 IH]; simpl; [reflexivity|].
  now rewrite IH, append_assoc.
Qed.

Lemma cat_snoc (l : list string) (x : string) :
  Bytes.cat (l ++ [x]) = Bytes.cat l +++ x.
Proof. rewrite cat_app. simpl. now rewrite append_nil_r. Qed.

Lemma has_app (d : ascii) (a b : string) :
  Bytes.has d (a +++ b) = Bytes.has d a || Bytes.has d b.
Proof.
  induction a as [|c a IH]; simpl; [reflexivity|].
  rewrite IH. now rewrite orb_assoc.
Qed.






(** Case analysis of one transition: every way [exec_step] can succeed. *)
Ltac step_cases H :=
  unfold exec_step, main_step, select_step, err_step, out_step in H;
  repeat match type of H with
    | context [send ?th ?e ?t] =>
        let Hs := fresh "Hsend" in
        destruct (send th e t) eqn:Hs;
        [apply send_inv in Hs as [? ->] | discriminate]
    | context [match ?x with _ => _ end] => destruct x eqn:?; try discriminate
    end;
  try discriminate;
  injection H as <-.

(** One transition from a state given in full. *)
Ltac concrete_step H :=
  unfold exec_step, main_step, select_step, err_step, out_step, send in H;
  simpl in H.

(** An event of some shape does not occur in a trace given in full. *)
Ltac not_in_trace :=
  let H := fresh "H" in
  intros ? H; simpl in H;
  repeat (destruct H as [H|H]; [discriminate|]); exact H.

(** Runs the main goroutine from a state given in full, using what the two
    opening calls return. *)
Ltac run_main Hd Hn :=
  simpl;
  repeat (unfold task_step, exec_step, main_step, send; simpl;
          rewrite ?Hd, ?Hn; simpl);
  reflexivity.

Section TaskFacts.

Variable ColorsFuncMap : string -> option ColorFunc.
Variable s : Server.
Variable singleServer : bool.
Variable cmd : string.

Local Abbreviation r := (remote s).
Local Abbreviation estep := (exec_step ColorsFuncMap s singleServer cmd).
Local Abbreviation tstep := (task_step ColorsFuncMap s singleServer cmd).
Local Abbreviation trun := (task_run ColorsFuncMap s singleServer cmd).
Local Abbreviation treach := (task_reachable ColorsFuncMap s singleServer cmd).

Lemma task_run_app (l1 l2 : list TSched) (st : bool * Task) :
  trun (l1 ++ l2) st =
  match trun l1 st with
  | Some st' => trun l2 st'
  | None => None
  end.
Proof.
  revert st. induction l1 as [|x l1 IH]; intros st; simpl; [reflexivity|].
  destruct (tstep x st); [apply IH | reflexivity].
Qed.

(** Induction over the runs of a task: a property of the initial states
    kept by every transition holds of every reachable state. *)
Lemma task_reachable_ind (P : bool * Task -> Prop) :
  (forall c0, P (c0, newTask)) ->
  (forall x st st', P st -> tstep x st = Some st' -> P st') ->
  forall st, treach st -> P st.
Proof.
  intros Hinit Hstep st (c0 & sched & Hrun).
  specialize (Hinit c0). revert Hrun Hinit.
  generalize (c0, newTask). revert st.
  induction sched as [|x sched IH]; intros st st0 Hrun H0; simpl in Hrun.
  - injection Hrun as <-. exact H0.
  - destruct (tstep x st0) as [st1|] eqn:Hx; [|discriminate].
    eapply IH; [exact Hrun|]. eapply Hstep; eassumption.
Qed.

(** A property of tasks alone kept by [exec_step] under any state of the
    context. *)
Lemma task_invariant (P : Task -> Prop) :
  P newTask ->
  (forall c a t t', P t -> estep c a t = Some t' -> P t') ->
  forall st, treach st -> P (snd st).
Proof.
  intros Hinit Hstep.
  apply (task_reachable_ind (fun st => P (snd st))).
  - intros c0. exact Hinit.
  - intros x [c t] st' IH Hx. destruct x as [|a]; simpl in Hx.
    + injection Hx as <-. exact IH.
    + destruct (estep c a t) as [t'|] eqn:Ha; [|discriminate].
      injection Hx as <-. simpl in *. eapply Hstep; eassumption.
Qed.

Lemma task_reachable_step (x : TSched) (st st' : bool * Task) :
  treach st -> tstep x st = Some st' -> treach st'.
Proof.
  intros (c0 & sched & Hrun) Hx. exists c0, (sched ++ [x]).
  rewrite task_run_app, Hrun. simpl. rewrite Hx. reflexivity.
Qed.

(** The same, with the help of a property [I] already known of every
    reachable state. *)
Lemma task_invariant_with (I P : Task -> Prop) :
  (forall st, treach st -> I (snd st)) ->
  P newTask ->
  (forall c a t t', I t -> P t -> estep c a t = Some t' -> P t') ->
  forall st, treach st -> P (snd st).
Proof.
  intros HI Hinit Hstep st Hreach.
  enough (treach st /\ P (snd st)) as [_ H] by exact H.
  revert st Hreach.
  apply (task_reachable_ind (fun st => treach st /\ P (snd st))).
  - intros c0. split; [exists c0, []; reflexivity | exact Hinit].
  - intros x [c t] st' [Hr IH] Hx.
    split; [eapply task_reachable_step; eassumption|].
    destruct x as [|a]; simpl in Hx.
    + injection Hx as <-. exact IH.
    + destruct (estep c a t) as [t'|] eqn:Ha; [|discriminate].
      injection Hx as <-. simpl in *.
      eapply Hstep; [exact (HI _ Hr) | exact IH | exact Ha].
Qed.

End TaskFacts.

(* ------------------------------------------------------------------ *)
(** ** Bookkeeping invariants *)

Section Bookkeeping.

Variable ColorsFuncMap : string -> option ColorFunc.
Variable s : Server.
Variable singleServer : bool.
Variable cmd : string.

Local Abbreviation estep := (exec_step ColorsFuncMap s singleServer cmd).

Lemma idle_inv_step (c : bool) (a : TAction) (t t' : Task) :
  idle_inv t -> estep c a t = Some t' -> idle_inv t'.
Proof.
  unfold idle_inv. intros Hinv Hstep.
  destruct a; step_cases Hstep; simpl in *;
    repeat match goal with
      | H : mainPc _ = _ |- _ => rewrite H in Hinv
      | H : errPc _ = _ |- _ => rewrite H in Hinv
      | H : outPc _ = _ |- _ => rewrite H in Hinv
      end;
    try tauto; try (destruct Hinv; discriminate);
    try (destruct (mainPc t); intuition discriminate).
Qed.

Lemma wg_inv_step (c : bool) (a : TAction) (t t' : Task) :
  wg_inv t -> idle_inv t -> estep c a t = Some t' -> wg_inv t'.
Proof.
  unfold wg_inv, idle_inv. intros Hinv Hidle Hstep.
  destruct a; step_cases Hstep; simpl in *;
    repeat match goal with
      | H : mainPc _ = _ |- _ => rewrite H in Hidle
      | H : errPc _ = _ |- _ => rewrite H in Hinv
      end;
    try assumption; try lia.
  destruct Hidle as [-> _] in Hinv. lia.
Qed.

End Bookkeeping.

(* ------------------------------------------------------------------ *)
(** ** Failures while opening the connection or the session *)

Section OpenFailures.

Variable ColorsFuncMap : string -> option ColorFunc.
Variable s : Server.
Variable singleServer : bool.
Variable cmd : string.

Local Abbreviation r := (remote s).
Local Abbreviation estep := (exec_step ColorsFuncMap s singleServer cmd).
Local Abbreviation trun := (task_run ColorsFuncMap s singleServer cmd).
Local Abbreviation treach := (task_reachable ColorsFuncMap s singleServer cmd).

Lemma dial_failure_reach (e : error) (st : bool * Task) :
  dial r = Some e -> treach st -> dial_failure_states e (snd st).
Proof.
  intros Hd. apply task_invariant.
  - left. reflexivity.
  - intros c a t t' Hinv Hstep.
    destruct Hinv as [-> | [-> | ->]];
      destruct a; concrete_step Hstep; rewrite ?Hd in Hstep;
      try discriminate; injection Hstep as <-.
    + right. left. reflexivity.
    + right. right. reflexivity.
Qed.

Lemma session_failure_reach (e : error) (st : bool * Task) :
  dial r = None -> newSession r = Some e -> treach st ->
  session_failure_states e (snd st).
Proof.
  intros Hd Hn. apply task_invariant.
  - left. reflexivity.
  - intros c a t t' Hinv Hstep.
    destruct Hinv as [-> | [-> | [-> | [-> | ->]]]];
      destruct a; concrete_step Hstep; rewrite ?Hd, ?Hn in Hstep;
      try discriminate; injection Hstep as <-; unfold session_failure_states;
      simpl; auto 6.
Qed.

(** C9.  When [s.sshClient()] fails with [e], the task never asks for a
    session (and starts no command), the send of [e] on [errCh] is the only
    thing it does before returning, and it does return: at most two more
    statements of the main goroutine.  When the client is obtained and
    [NewSession] fails with [e], the task starts no command, sends [e],
    closes the client (the deferred call) and returns: at most four more
    statements. *)
Theorem exec_open_failure (e : error) (st : bool * Task) :
  treach st ->
  (dial r = Some e ->
   (forall x, ~ In (EvNewSession x) (trace (snd st)))
   /\ (forall c, ~ In (EvGoPipeExec c) (trace (snd st)))
   /\ (mainPc (snd st) = MReturned ->
       trace (snd st) = [EvSshClient (Some e); EvSend ThMain e; EvReturn]
       /\ errCh (snd st) = Some e)
   /\ exists n st', n <= 2
       /\ trun (repeat (SDo TMain) n) st = Some st'
       /\ mainPc (snd st') = MReturned)
  /\
  (dial r = None -> newSession r = Some e ->
   (forall c, ~ In (EvGoPipeExec c) (trace (snd st)))
   /\ (mainPc (snd st) = MReturned ->
       trace (snd st) = [EvSshClient None; EvNewSession (Some e);
                         EvSend ThMain e; EvClientClose; EvReturn]
       /\ errCh (snd st) = Some e)
   /\ exists n st', n <= 4
       /\ trun (repeat (SDo TMain) n) st = Some st'
       /\ mainPc (snd st') = MReturned).
Proof.
  intros Hreach. split.
  - intros Hd. pose proof (dial_failure_reach e st Hd Hreach) as Hst.
    destruct st as [c t]. simpl in *.
    destruct Hst as [-> | [-> | ->]]; simpl;
      (split; [not_in_trace | split; [not_in_trace | split]]);
      try (intros; discriminate); try (intros _; split; reflexivity).
    + eexists 2, _. split; [lia | split; [run_main Hd Hd | reflexivity]].
    + eexists 1, _. split; [lia | split; [run_main Hd Hd | reflexivity]].
    + eexists 0, _. split; [lia | split; [run_main Hd Hd | reflexivity]].
  - intros Hd Hn.
    pose proof (session_failure_reach e st Hd Hn Hreach) as Hst.
    destruct st as [c t]. simpl in *.
    destruct Hst as [-> | [-> | [-> | [-> | ->]]]]; simpl;
      (split; [not_in_trace | split]);
      try (intros; discriminate); try (intros _; split; reflexivity).
    + eexists 4, _. split; [lia | split; [run_main Hd Hn | reflexivity]].
    + eexists 3, _. split; [lia | split; [run_main Hd Hn | reflexivity]].
    + eexists 2, _. split; [lia | split; [run_main Hd Hn | reflexivity]].
    + eexists 1, _. split; [lia | split; [run_main Hd Hn | reflexivity]].
    + eexists 0, _. split; [lia | split; [run_main Hd Hn | reflexivity]].
Qed.

End OpenFailures.

(* ------------------------------------------------------------------ *)
(** ** The copy of the session error *)

Section ErrorCopy.

Variable ColorsFuncMap : string -> option ColorFunc.
Variable s : Server.
Variable singleServer : bool.
Variable cmd : string.

Local Abbreviation r := (remote s).
Local Abbreviation estep := (exec_step ColorsFuncMap s singleServer cmd).
Local Abbreviation trun := (task_run ColorsFuncMap s singleServer cmd).
Local Abbreviation treach := (task_reachable ColorsFuncMap s singleServer cmd).

Lemma closed_signal_inv (st : bool * Task) :
  errorSig r = SigClosed -> treach st ->
  (forall e, errPc (snd st) <> CpSend e)
  /\ (forall e, ~ In (ThErr, e) (sends (trace (snd st)))).
Proof.
  intros Hsig. apply (task_invariant _ _ _ _
    (fun t => (forall e, errPc t <> CpSend e)
              /\ (forall e, ~ In (ThErr, e) (sends (trace t))))).
  - split; intros e; simpl; [discriminate | tauto].
  - intros c a t t' [Hpc Hs] Hstep.
    destruct a; step_cases Hstep; simpl;
      try (exfalso; eapply Hpc; eassumption);
      (split; [first [exact Hpc | intros; discriminate] |]);
      intros e'; rewrite ?sends_app; simpl; rewrite ?app_nil_r;
      rewrite ?in_app_iff; simpl;
      intros Hin; decompose [or] Hin; try discriminate;
      try (eapply Hs; eassumption); try tauto;
      try (eapply Hpc; reflexivity).
Qed.

End ErrorCopy.

(* ------------------------------------------------------------------ *)
(** ** The relay of standard output *)

(** Membership in the sends of a trace extended by the events of one
    transition. *)
Ltac sends_cases Hs :=
  let e' := fresh "e'" in
  let Hin := fresh "Hin" in
  intros e'; rewrite ?sends_app; simpl; rewrite ?app_nil_r;
  rewrite ?in_app_iff; simpl;
  intros Hin; decompose [or] Hin; try discriminate;
  try (eapply Hs; eassumption); try tauto.

(** A state reached by a run from a reachable state is reachable. *)
Lemma task_reachable_run ColorsFuncMap s singleServer cmd
  (sched : list TSched) (st st' : bool * Task) :
  task_reachable ColorsFuncMap s singleServer cmd st ->
  task_run ColorsFuncMap s singleServer cmd sched st = Some st' ->
  task_reachable ColorsFuncMap s singleServer cmd st'.
Proof.
  intros (c0 & sched0 & Hrun0) Hrun. exists c0, (sched0 ++ sched).
  rewrite task_run_app, Hrun0. exact Hrun.
Qed.

(** The main goroutine reaches the [go] statement of the relay without
    waiting for anything, and the relay then takes the ready signal and
    begins the copy of the whole stream. *)
Lemma relay_begins ColorsFuncMap (s : Server) cmd (c : bool) (t : Task) :
  dial (remote s) = None -> newSession (remote s) = None ->
  readySig (remote s) = true ->
  relay_started t -> outPc t = OtIdle ->
  exists t',
    task_run ColorsFuncMap s true cmd
      (repeat (SDo TMain) (to_relay (mainPc t)) ++ [SDo TOut]) (c, t)
    = Some (c, t')
    /\ outPc t' = OtCopy (stdoutChunks (remote s)).
Proof.
  destruct s as [name [dl ns rd dn sg chunks fin color]].
  destruct t as [mp ep op ch wg tr].
  unfold relay_started. intros Hd Hn Hr Hinv Hout.
  simpl in Hd, Hn, Hr, Hinv, Hout. subst dl ns rd op.
  destruct mp; try contradiction;
    try (exfalso; apply Hinv; reflexivity);
    match goal with
    | |- exists t', ?run = Some (_, t') /\ _ =>
        let v := eval vm_compute in run in
        match v with
        | Some (_, ?x) =>
            exists x; split; [vm_compute; reflexivity | reflexivity]
        end
    end.
Qed.

Section SingleServerRelay.

Variable ColorsFuncMap : string -> option ColorFunc.
Variable s : Server.
Variable cmd : string.

Local Abbreviation r := (remote s).

Lemma copy_inv_reach (st : bool * Task) :
  task_reachable ColorsFuncMap s true cmd st ->
  idle_inv (snd st) /\ copy_inv r (snd st)
  /\ (forall e, ~ In (ThOut, e) (sends (trace (snd st)))).
Proof.
  apply (task_invariant _ _ _ _
    (fun t => idle_inv t /\ copy_inv r t
              /\ (forall e, ~ In (ThOut, e) (sends (trace t))))).
  - repeat split; intros e [].
  - intros c a t t' (Hidle & Hinv & Hs) Hstep.
    split; [eapply idle_inv_step; eassumption|].
    unfold copy_inv, idle_inv in *.
    destruct a; step_cases Hstep; simpl in *;
      repeat match goal with
        | H : mainPc _ = _ |- _ => rewrite H in Hidle
        | H : outPc _ = _ |- _ => rewrite H in Hinv
        end;
      rewrite ?writes_app; simpl; rewrite ?app_nil_r;
      try contradiction;
      (split; [try assumption | sends_cases Hs]).
    + destruct Hidle as [_ Ho]. rewrite Ho in Hinv. exact Hinv.
    + rewrite Hinv. reflexivity.
    + rewrite append_nil_r in Hinv. exact Hinv.
    + rewrite append_nil_r in Hinv. exact Hinv.
    + rewrite cat_snoc, append_assoc. exact Hinv.
Qed.

Lemma relay_started_reach (st : bool * Task) :
  dial r = None -> newSession r = None ->
  task_reachable ColorsFuncMap s true cmd st -> relay_started (snd st).
Proof.
  intros Hd Hn.
  apply (task_invariant _ _ _ _ relay_started); [reflexivity|].
  intros c a t t' Hinv Hstep. unfold relay_started in *.
  destruct a; step_cases Hstep; simpl in *;
    repeat match goal with
      | H : mainPc _ = _ |- _ => rewrite H in Hinv
      end;
    try congruence; try contradiction; try assumption; try discriminate;
    destruct (mainPc t); try contradiction; try congruence;
    try assumption; try discriminate.
Qed.

(** [io.Copy] standing at the chunks [src] runs to its end in one step per
    chunk and one for the end of the stream, whatever the other goroutines
    of the task do or do not. *)
Lemma copy_runs (src : list string) (c : bool) (t : Task) :
  stdoutEnd r <> EndPending ->
  outPc t = OtCopy src ->
  exists t',
    task_run ColorsFuncMap s true cmd
      (repeat (SDo TOut) (S (length src))) (c, t) = Some (c, t')
    /\ outPc t' = OtDone.
Proof.
  intros Hend. revert t. induction src as [|ch src IH]; intros t Hout.
  - exists (setOut OtDone t). split; [|reflexivity].
    cbn [length repeat task_run].
    unfold task_step, exec_step, out_step. cbn [fst snd]. rewrite Hout.
    destruct (stdoutEnd r) eqn:He; [reflexivity | reflexivity | congruence].
  - pose (t1 := setOut (OtCopy src)
                  (match ch with
                   | EmptyString => t
                   | _ => emit (EvWrite ch) t
                   end)).
    destruct (IH t1 eq_refl) as (t' & Hrun & Hdone).
    exists t'. split; [|exact Hdone].
    change (repeat (SDo TOut) (S (length (ch :: src))))
      with (SDo TOut :: repeat (SDo TOut) (S (length src))).
    cbn [task_run].
    assert (Hstep : task_step ColorsFuncMap s true cmd (SDo TOut) (c, t)
                    = Some (c, t1)).
    { unfold task_step, exec_step, out_step. cbn [fst snd].
      rewrite Hout. reflexivity. }
    rewrite Hstep. exact Hrun.
Qed.

(** C6, as the code has it.  In single-server mode the relay is [io.Copy]:
    at every moment the bytes it has written to standard output are the
    first bytes of the remote stream, unchanged, and once the copy has
    ended they are all the bytes of the stream, whether they form full
    lines or not; the relay sends no error either.  When the client and
    the session are obtained, the ready signal fires and the stream ends,
    the copy can always be brought to its end: the schedule [copying]
    runs from every reachable state, and after it the bytes written are
    those of the stream.  Nothing in [exec] waits for the relay. *)
Theorem single_server_passthrough (st : bool * Task) :
  task_reachable ColorsFuncMap s true cmd st ->
  (exists rest,
     Bytes.cat (stdoutChunks r)
     = Bytes.cat (writes (trace (snd st))) +++ rest)
  /\ (outPc (snd st) = OtDone ->
      Bytes.cat (writes (trace (snd st))) = Bytes.cat (stdoutChunks r))
  /\ (forall e, ~ In (ThOut, e) (sends (trace (snd st))))
  /\ (dial r = None -> newSession r = None ->
      readySig r = true -> stdoutEnd r <> EndPending ->
      exists st',
        task_run ColorsFuncMap s true cmd
          (copying (stdoutChunks r) (snd st)) st = Some st'
        /\ outPc (snd st') = OtDone
        /\ Bytes.cat (writes (trace (snd st')))
           = Bytes.cat (stdoutChunks r)).
Proof.
  intros Hreach. destruct (copy_inv_reach st Hreach) as (_ & Hinv & Hs).
  unfold copy_inv in Hinv. repeat split; [| |exact Hs|].
  - destruct (outPc (snd st)); try contradiction.
    + rewrite Hinv. exists (Bytes.cat (stdoutChunks r)). reflexivity.
    + rewrite Hinv. exists (Bytes.cat (stdoutChunks r)). reflexivity.
    + exists (Bytes.cat src). symmetry. exact Hinv.
    + exists EmptyString. rewrite append_nil_r. symmetry. exact Hinv.
  - intros Hd. rewrite Hd in Hinv. exact Hinv.
  - intros Hd Hn Hr Hend.
    pose proof (relay_started_reach st Hd Hn Hreach) as Hstarted.
    assert (Hrun : exists t',
               task_run ColorsFuncMap s true cmd
                 (copying (stdoutChunks r) (snd st)) st = Some (fst st, t')
               /\ outPc t' = OtDone).
    { destruct st as [c t]. cbn [fst snd] in *. unfold copying.
      destruct (outPc t) eqn:Hout; try contradiction.
      - destruct (relay_begins ColorsFuncMap s cmd c t Hd Hn Hr Hstarted Hout)
          as (t1 & H1 & Ho1).
        destruct (copy_runs _ c t1 Hend Ho1) as (t' & H2 & Hdone).
        exists t'. rewrite task_run_app, H1. split; assumption.
      - pose (t1 := emit EvReady (setOut (OtCopy (stdoutChunks r)) t)).
        destruct (copy_runs _ c t1 Hend eq_refl) as (t' & H2 & Hdone).
        exists t'. split; [|exact Hdone].
        rewrite task_run_app. cbn [task_run].
        assert (Hstep : task_step ColorsFuncMap s true cmd (SDo TOut) (c, t)
                        = Some (c, t1)).
        { unfold task_step, exec_step, out_step. cbn [fst snd].
          rewrite Hout, Hr. reflexivity. }
        rewrite Hstep. exact H2.
      - exact (copy_runs _ c t Hend Hout).
      - exists t. split; [reflexivity | exact Hout]. }
    destruct Hrun as (t' & Hrun & Hdone).
    exists (fst st, t'). split; [exact Hrun|]. split; [exact Hdone|].
    pose proof (task_reachable_run _ _ _ _ _ _ _ Hreach Hrun) as Hreach'.
    destruct (copy_inv_reach _ Hreach') as (_ & Hinv' & _).
    unfold copy_inv in Hinv'. cbn [snd] in Hinv'.
    rewrite Hdone in Hinv'. exact Hinv'.
Qed.

End SingleServerRelay.

Lemma out_sends_app (l1 l2 : list Event) :
  out_sends (l1 ++ l2) = out_sends l1 ++ out_sends l2.
Proof.
  induction l1 as [|ev l1 IH]; simpl; [reflexivity|].
  destruct ev as [| | |[]| | | | | | | | |]; simpl; rewrite ?IH; reflexivity.
Qed.

Section MultiServerRelay.

Variable ColorsFuncMap : string -> option ColorFunc.
Variable s : Server.
Variable cmd : string.

Local Abbreviation r := (remote s).



End MultiServerRelay.

(* ------------------------------------------------------------------ *)
(** ** The end of a task *)

Lemma selected_app (tr l : list Event) : selected tr -> selected (tr ++ l).
Proof.
  intros (sel & l1 & l2 & Hsel & -> & Hno).
  exists sel, l1, (l2 ++ l). repeat split; try assumption.
  rewrite <- app_assoc. reflexivity.
Qed.

Lemma selected_before (tr : list Event) :
  selected tr ->
  exists sel, (sel = EvCtxDone \/ sel = EvSessionDone)
              /\ before sel EvClientClose tr.
Proof.
  intros (sel & l1 & l2 & Hsel & -> & _).
  exists sel. split; [exact Hsel|]. exists l1, [], l2. reflexivity.
Qed.

Lemma selected_closed (tr : list Event) : selected tr -> In EvClientClose tr.
Proof.
  intros (sel & l1 & l2 & _ & -> & _).
  apply in_or_app. right. right. left. reflexivity.
Qed.

(** Facts about a trace that stay true when the trace grows. *)
Ltac trace_mono :=
  repeat match goal with
    | |- In _ (_ ++ _) => apply in_or_app; left
    | |- before _ _ (_ ++ _) => apply before_app
    | |- selected (_ ++ _) => apply selected_app
    end;
  try assumption.

(** The client is not closed by an event that is not a close. *)
Ltac not_closed Hinv :=
  let Hin := fresh "Hin" in
  intros Hin; apply in_app_or in Hin as [Hin|[Hin|[]]];
  [exact (Hinv Hin) | discriminate Hin].

Section TaskEnd.

Variable ColorsFuncMap : string -> option ColorFunc.
Variable s : Server.
Variable singleServer : bool.
Variable cmd : string.

Local Abbreviation r := (remote s).
Local Abbreviation estep := (exec_step ColorsFuncMap s singleServer cmd).
Local Abbreviation treach := (task_reachable ColorsFuncMap s singleServer cmd).

Lemma copy_evidence_step (c : bool) (a : TAction) (t t' : Task) :
  copy_evidence r t -> estep c a t = Some t' -> copy_evidence r t'.
Proof.
  unfold copy_evidence. intros Hinv Hstep.
  destruct a; step_cases Hstep; simpl in *;
    repeat match goal with
      | H : errPc _ = _ |- _ => rewrite H in Hinv
      end.
  all: try exact I.
  all: try solve
    [ destruct (errPc t);
      [ exact I | exact I
      | destruct Hinv as [? ?]; split; trace_mono
      | destruct Hinv as [[? ?]|(e0 & ? & ? & ?)];
        [ left; split; trace_mono
        | right; exists e0; repeat split; trace_mono; congruence ] ] ].
  - split; [reflexivity|]. apply in_or_app. right. left. reflexivity.
  - left. split; [reflexivity|]. apply in_or_app. right. left. reflexivity.
  - destruct Hinv as [Hsig Hin]. right. exists e.
    split; [exact Hsig|]. split; [|reflexivity].
    apply before_snoc. exact Hin.
Qed.

(** On the path on which the client and the session were obtained. *)
Lemma finish_inv_step (c : bool) (a : TAction) (t t' : Task) :
  dial r = None -> newSession r = None ->
  idle_inv t -> wg_inv t -> copy_evidence r t -> finish_inv r t ->
  estep c a t = Some t' -> finish_inv r t'.
Proof.
  unfold finish_inv. intros Hd Hn Hidle Hwg Hev Hinv Hstep.
  unfold idle_inv, wg_inv, copy_evidence, waited in *.
  destruct a; step_cases Hstep; simpl in *;
    repeat match goal with
      | H : mainPc _ = _ |- _ => rewrite H in Hinv, Hidle
      end; try congruence; try contradiction.
  all: try solve [not_closed Hinv].
  all: try solve
    [ destruct (mainPc t); try contradiction; try solve [not_closed Hinv];
      repeat match goal with
        | H : _ /\ _ |- _ => destruct H
        | H : exists _, _ |- _ => destruct H
        end;
      try congruence;
      repeat split; trace_mono; eauto using before_app ].
  - (* errWg.Wait() returns *)
    assert (Hdone : errPc t = CpDone).
    { destruct (errPc t); try discriminate; [contradiction | reflexivity]. }
    rewrite Hdone in Hev.
    split; [trace_mono|]. split; [exact Hdone|].
    split; [apply before_snoc, selected_closed, Hinv|].
    destruct Hev as [[Hsig Hin]|(e & Hsig & Hb & Hch)]; split.
    + exists None. apply before_snoc. exact Hin.
    + intros e He. congruence.
    + exists (Some e). apply before_snoc. eapply before_In_l. exact Hb.
    + intros e' He'. assert (e' = e) as -> by congruence.
      apply before_snoc. eapply before_In_r. exact Hb.
  - (* deferred close of the client, return *)
    destruct Hinv as (Hsel & (Hdone & Hbc & [x Hx] & Hsend)).
    split; [trace_mono|]. split.
    + repeat split; trace_mono; eauto using before_app.
    + apply before_snoc. apply in_or_app. left.
      eapply before_In_r. exact Hbc.
  - (* the select takes ctx.Done *)
    exists EvCtxDone, (trace t), []. rewrite <- app_assoc. auto.
  - (* the select takes sshSession.Done *)
    exists EvSessionDone, (trace t), []. rewrite <- app_assoc. auto.
Qed.

Lemma task_end_reach (st : bool * Task) :
  dial r = None -> newSession r = None -> treach st ->
  idle_inv (snd st) /\ wg_inv (snd st)
  /\ copy_evidence r (snd st) /\ finish_inv r (snd st).
Proof.
  intros Hd Hn.
  apply (task_invariant _ _ _ _
    (fun t => idle_inv t /\ wg_inv t /\ copy_evidence r t /\ finish_inv r t)).
  - repeat split. intros [].
  - intros c a t t' (Hidle & Hwg & Hev & Hfin) Hstep.
    split; [eapply idle_inv_step; eassumption|].
    split; [eapply wg_inv_step; eassumption|].
    split; [eapply copy_evidence_step; eassumption|].
    eapply finish_inv_step; eassumption.
Qed.

(** A case of the final [select] is taken only when its channel is ready:
    the context has been cancelled, or the session has signalled its end. *)
Lemma select_cause (st : bool * Task) :
  treach st ->
  (In EvCtxDone (trace (snd st)) -> fst st = true)
  /\ (In EvSessionDone (trace (snd st)) -> doneSig r = true).
Proof.
  apply (task_reachable_ind _ _ _ _
    (fun st => (In EvCtxDone (trace (snd st)) -> fst st = true)
               /\ (In EvSessionDone (trace (snd st)) -> doneSig r = true))).
  - intros c0. split; intros [].
  - intros x [c t] st' [Hc Hd] Hx. destruct x as [|a]; simpl in Hx.
    + injection Hx as <-. simpl in *. split; [reflexivity | exact Hd].
    + destruct (estep c a t) as [t'|] eqn:Ha; [|discriminate].
      injection Hx as <-. simpl in *.
      destruct a; step_cases Ha; simpl in *;
        (split; intros Hin;
         repeat (apply in_app_or in Hin as [Hin|[Hin|[]]];
                 try discriminate Hin);
         auto).
Qed.

(** X13.  A task that obtained its client and its session and has returned
    went through the following, in this order.  Its final [select] took the
    case of the cancelled context or the case of the session's done signal,
    and only a case whose channel was ready; the client was closed right
    then and not before; [errWg.Wait()] returned after this close and after
    the error-copy goroutine had received from the session's error signal;
    the task returned after the wait.  When the signal delivers an error,
    that error was received, then sent on [errCh], then the wait returned,
    and [errCh] holds it when the task returns. *)
Theorem exec_termination_order (st : bool * Task) :
  dial r = None -> newSession r = None ->
  treach st -> mainPc (snd st) = MReturned ->
  selected (trace (snd st))
  /\ (In EvCtxDone (trace (snd st)) -> fst st = true)
  /\ (In EvSessionDone (trace (snd st)) -> doneSig r = true)
  /\ before EvClientClose EvWaitReturn (trace (snd st))
  /\ (exists x, before (EvErrorRecv x) EvWaitReturn (trace (snd st)))
  /\ (forall e, errorSig r = SigError e ->
      before (EvErrorRecv (Some e)) (EvSend ThErr e) (trace (snd st))
      /\ before (EvSend ThErr e) EvWaitReturn (trace (snd st))
      /\ errCh (snd st) = Some e)
  /\ before EvWaitReturn EvReturn (trace (snd st)).
Proof.
  intros Hd Hn Hreach Hret.
  destruct (task_end_reach st Hd Hn Hreach) as (_ & _ & Hev & Hfin).
  destruct (select_cause st Hreach) as [Hctx Hdone].
  unfold finish_inv in Hfin. rewrite Hret in Hfin.
  destruct Hfin as (Hsel & (Hcp & Hclose & Hrecv & Hsend) & Hwr).
  unfold copy_evidence in Hev. rewrite Hcp in Hev.
  repeat split; try assumption.
  - destruct Hev as [[Hsig _]|(e' & Hsig & Hb & _)]; [congruence|].
    assert (e' = e) as -> by congruence. exact Hb.
  - apply Hsend. assumption.
  - destruct Hev as [[Hsig _]|(e' & Hsig & _ & Hch)]; congruence.
Qed.

End TaskEnd.

(* ------------------------------------------------------------------ *)
(** ** A closed error signal *)

Section QuietTask.

Variable ColorsFuncMap : string -> option ColorFunc.
Variable s : Server.
Variable singleServer : bool.
Variable cmd : string.

Local Abbreviation r := (remote s).
Local Abbreviation estep := (exec_step ColorsFuncMap s singleServer cmd).
Local Abbreviation treach := (task_reachable ColorsFuncMap s singleServer cmd).

Lemma out_quiet_reach (st : bool * Task) :
  quiet_stdout ColorsFuncMap s singleServer -> treach st ->
  out_quiet ColorsFuncMap s singleServer (snd st).
Proof.
  intros Hq. apply task_invariant.
  - exact I.
  - intros c a t t' Hinv Hstep. unfold out_quiet in *.
    destruct a; step_cases Hstep; simpl in *;
      repeat match goal with
        | H : outPc _ = _ |- _ => rewrite H in Hinv
        end;
      try exact Hinv; try exact I; try reflexivity;
      try contradiction; try (destruct Hinv; discriminate);
      try discriminate.
    + split; [exact Hinv | reflexivity].
    + destruct Hq as [Hq|(_ & fn & cn & cs & HP & _)]; congruence.
    + destruct Hinv as [Hm HP].
      destruct Hq as [Hq|(_ & fn' & cn & cs & HP' & Hn & Hc)]; [congruence|].
      assert (fn' = fn) as -> by congruence.
      match goal with
      | H : Execute _ _ _ = Err _ |- _ =>
          unfold Execute in H; rewrite Hn, Hc in H; discriminate H
      end.
    + destruct Hinv as [Hm HP].
      destruct Hq as [Hq|(Hend & _)]; [congruence|].
      eapply Hend. eassumption.
Qed.

Lemma quiet_reach (st : bool * Task) :
  dial r = None -> newSession r = None -> errorSig r = SigClosed ->
  quiet_stdout ColorsFuncMap s singleServer -> treach st ->
  finish_inv r (snd st)
  /\ out_quiet ColorsFuncMap s singleServer (snd st)
  /\ sends (trace (snd st)) = [] /\ errCh (snd st) = None.
Proof.
  intros Hd Hn Hsig Hq Hreach.
  pose proof (task_end_reach _ _ _ _ st Hd Hn Hreach) as (_ & _ & _ & Hfin).
  pose proof (out_quiet_reach st Hq Hreach) as Hout.
  split; [exact Hfin|]. split; [exact Hout|].
  clear Hfin Hout. revert st Hreach.
  apply (task_invariant_with _ _ _ _
    (fun t => finish_inv r t
              /\ out_quiet ColorsFuncMap s singleServer t
              /\ (forall e, errPc t <> CpSend e))
    (fun t => sends (trace t) = [] /\ errCh t = None)).
  - intros st Hreach.
    pose proof (task_end_reach _ _ _ _ st Hd Hn Hreach) as (_ & _ & _ & Hfin).
    pose proof (out_quiet_reach st Hq Hreach) as Hout.
    pose proof (closed_signal_inv _ _ _ _ st Hsig Hreach) as [Hpc _].
    auto.
  - split; reflexivity.
  - intros c a t t' (Hfin & Hout & Hpc) [Hsd Hch] Hstep.
    unfold finish_inv, out_quiet in *.
    destruct a; step_cases Hstep; simpl in *;
      rewrite ?sends_app; simpl; rewrite ?app_nil_r;
      repeat match goal with
        | H : mainPc _ = _ |- _ => rewrite H in Hfin
        | H : outPc _ = _ |- _ => rewrite H in Hout
        end;
      try contradiction; try (split; assumption).
    exfalso. eapply Hpc. reflexivity.
Qed.

(** C10.  When the session's error signal is closed without a value, the
    error-copy goroutine never stands at a send and has sent nothing on
    [errCh]; its receive, when it happens, ends the goroutine and leaves
    [errCh] and the completed and pending sends as they were.  When nothing
    else fails in the task (client and session obtained, no error in the
    relay of standard output), no send on [errCh] is ever made or under
    way, and [errCh] stays empty. *)
Theorem closed_error_signal_sends_nothing (st : bool * Task) :
  errorSig r = SigClosed -> treach st ->
  (forall e, errPc (snd st) <> CpSend e)
  /\ (forall e, ~ In (ThErr, e) (sends (trace (snd st))))
  /\ (errPc (snd st) = CpRecv ->
      exists t', estep (fst st) TErr (snd st) = Some t'
                 /\ errPc t' = CpDone
                 /\ errCh t' = errCh (snd st)
                 /\ sends (trace t') = sends (trace (snd st))
                 /\ pending_sends t' = pending_sends (snd st))
  /\ (dial r = None -> newSession r = None ->
      quiet_stdout ColorsFuncMap s singleServer ->
      sends (trace (snd st)) = [] /\ pending_sends (snd st) = []
      /\ errCh (snd st) = None).
Proof.
  intros Hsig Hreach.
  destruct (closed_signal_inv _ _ _ _ st Hsig Hreach) as [Hpc Hs].
  split; [exact Hpc|]. split; [exact Hs|]. split.
  - intros Hrecv. destruct st as [c t]. simpl in *.
    unfold err_step. rewrite Hrecv, Hsig.
    eexists. split; [reflexivity|]. simpl.
    rewrite sends_app. simpl. rewrite app_nil_r.
    unfold pending_sends. simpl. rewrite Hrecv. repeat split.
  - intros Hd Hn Hq.
    destruct (quiet_reach st Hd Hn Hsig Hq Hreach) as (Hfin & Hout & Hsd & Hch).
    split; [exact Hsd|]. split; [|exact Hch].
    unfold pending_sends, finish_inv, out_quiet in *.
    destruct (mainPc (snd st)); try contradiction;
      destruct (errPc (snd st)) eqn:He; try (exfalso; eapply Hpc; eauto; fail);
      destruct (outPc (snd st)); try contradiction; reflexivity.
Qed.


End QuietTask.

(* ------------------------------------------------------------------ *)
(** ** The dispatcher *)

Lemma running_app (l1 l2 : list Job) :
  running (l1 ++ l2) = running l1 + running l2.
Proof.
  induction l1 as [|j l1 IH]; simpl; [reflexivity|].
  destruct (jobPc j); rewrite IH; reflexivity.
Qed.

Lemma running_zero (js : list Job) :
  running js = 0 <-> Forall (fun j => jobPc j = JDone) js.
Proof.
  induction js as [|j js IH]; simpl.
  - split; [constructor | reflexivity].
  - destruct (jobPc j) eqn:Hj.
    + split; [discriminate | intros H; inversion H; congruence].
    + split; [discriminate | intros H; inversion H; congruence].
    + rewrite IH. split.
      * intros H. constructor; assumption.
      * intros H. inversion H. assumption.
Qed.

(** Replacing the [i]-th job changes the count of running goroutines by
    the difference between the two jobs. *)
Lemma running_insert (js : list Job) (i : nat) (j j' : Job) :
  js !! i = Some j ->
  running (<[i := j']> js) + running [j] = running js + running [j'].
Proof.
  revert i. induction js as [|x js IH]; intros i Hi; [discriminate|].
  destruct i as [|i]; simpl in *.
  - injection Hi as ->. destruct (jobPc j), (jobPc j'); lia.
  - specialize (IH i Hi). simpl in IH.
    destruct (jobPc x), (jobPc j), (jobPc j'); lia.
Qed.

Lemma mainPc_returned_step ColorsFuncMap s singleServer cmd c a t t' :
  mainPc t = MReturned ->
  exec_step ColorsFuncMap s singleServer cmd c a t = Some t' ->
  mainPc t' = MReturned.
Proof.
  intros Hret Hstep. destruct a; step_cases Hstep; simpl; congruence.
Qed.

Lemma errCh_justified_step ColorsFuncMap s singleServer cmd c a t t' :
  errCh_justified t ->
  exec_step ColorsFuncMap s singleServer cmd c a t = Some t' ->
  errCh_justified t'.
Proof.
  unfold errCh_justified. intros Hinv Hstep.
  destruct a; step_cases Hstep; simpl; intros e' He';
    try (injection He' as <-; eexists;
         repeat (apply in_or_app; first [right; left; reflexivity | left]));
    try (destruct (Hinv e' He') as [th Hth]; exists th; trace_mono).
Qed.

Section DispatcherFacts.

Variable ColorsFuncMap : string -> option ColorFunc.
Variable FindServerByName : string -> option Server.
Variable FindServersByTag : string -> list Server.
Variable bgRedHiWhite : string -> string.
Variable tagOrName : string.
Variable cmd : string.
Variable singleServer : bool.

Local Abbreviation gstep :=
  (step ColorsFuncMap FindServerByName FindServersByTag bgRedHiWhite
     tagOrName cmd singleServer).
Local Abbreviation grun :=
  (run ColorsFuncMap FindServerByName FindServersByTag bgRedHiWhite
     tagOrName cmd singleServer).
Local Abbreviation greach :=
  (reachable ColorsFuncMap FindServerByName FindServersByTag bgRedHiWhite
     tagOrName cmd singleServer).
Local Abbreviation jinv := (job_inv bgRedHiWhite singleServer).
Local Abbreviation einv :=
  (exec_inv FindServerByName FindServersByTag tagOrName singleServer).

Lemma run_app (l1 l2 : list Action) (st : State) :
  grun (l1 ++ l2) st =
  match grun l1 st with
  | Some st' => grun l2 st'
  | None => None
  end.
Proof.
  revert st. induction l1 as [|a l1 IH]; intros st; simpl; [reflexivity|].
  destruct (gstep a st); [apply IH | reflexivity].
Qed.

(** Induction over the runs of [Exec]. *)
Lemma reachable_ind (P : State -> Prop) :
  P initial ->
  (forall a st st', P st -> gstep a st = Some st' -> P st') ->
  forall st, greach st -> P st.
Proof.
  intros Hinit Hstep st [sched Hrun]. revert Hrun Hinit.
  generalize initial. revert st.
  induction sched as [|a sched IH]; intros st st0 Hrun H0; simpl in Hrun.
  - injection Hrun as <-. exact H0.
  - destruct (gstep a st0) as [st1|] eqn:Ha; [|discriminate].
    eapply IH; [exact Hrun|]. eapply Hstep; eassumption.
Qed.

Lemma job_inv_new (s : Server) : jinv (newJob s).
Proof.
  split; [intros e He; discriminate | reflexivity].
Qed.

Lemma job_inv_task (j : Job) (c : bool) (a : TAction) (t' : Task) :
  jinv j ->
  exec_step ColorsFuncMap (server j) singleServer cmd c a (task j) = Some t' ->
  jinv {| server := server j; jobPc := jobPc j; task := t';
          printed := printed j |}.
Proof.
  intros [Hch Hpc] Hstep. split; simpl.
  - eapply errCh_justified_step; eassumption.
  - destruct (jobPc j); [exact Hpc | |].
    + destruct Hpc as [Hret Hpr].
      split; [eapply mainPc_returned_step; eassumption|].
      destruct Hpr as [Hpr|(th & e & Hin & Hpr)]; [left; exact Hpr|].
      right. exists th, e. split; [|exact Hpr].
      clear - Hin Hstep. destruct a; step_cases Hstep; simpl; trace_mono.
    + destruct Hpc as [Hret Hpr].
      split; [eapply mainPc_returned_step; eassumption|].
      destruct Hpr as [Hpr|(th & e & Hin & Hpr)]; [left; exact Hpr|].
      right. exists th, e. split; [|exact Hpr].
      clear - Hin Hstep. destruct a; step_cases Hstep; simpl; trace_mono.
Qed.

Lemma job_inv_select (j j' : Job) :
  jinv j -> select_errCh bgRedHiWhite singleServer j = Some j' ->
  jinv j' /\ server j' = server j /\ jobPc j = JExec /\ jobPc j' = JSelected.
Proof.
  intros [Hch Hpc]. unfold select_errCh.
  destruct (jobPc j) eqn:Hj; try discriminate.
  destruct (mainPc (task j)) eqn:Hm; try discriminate.
  destruct (errCh (task j)) as [e|] eqn:He; intros [= <-]; simpl.
  - repeat split; simpl; try assumption.
    + intros e' He'. discriminate.
    + right. destruct (Hch e He) as [th Hth]. exists th, e.
      split; [exact Hth|]. rewrite Hpc. reflexivity.
  - repeat split; simpl; try assumption. left. exact Hpc.
Qed.

Lemma exec_inv_jobs (st : State) (js : list Job) :
  server <$> js = server <$> jobs st ->
  running js = running (jobs st) ->
  (singleServer = true -> forall j, jobs st = [j] -> jobPc j = JExec ->
     exists j', js = [j'] /\ jobPc j' = JExec /\ server j' = server j) ->
  (singleServer = true -> forall j, jobs st = [j] -> jobPc j = JSelected ->
     exists j', js = [j'] /\ jobPc j' = JSelected /\ server j' = server j) ->
  einv st -> einv (setJobs js st).
Proof.
  intros Hsrv Hrun Hone Hsel. unfold exec_inv. simpl.
  assert (Hnil : jobs st = [] -> js = []).
  { intros H. rewrite H in Hsrv. destruct js; [reflexivity | discriminate]. }
  destruct singleServer; destruct (execPc st); try tauto.
  - intros (j & Hj & Hpc & Hf).
    destruct (Hone eq_refl j Hj Hpc) as (j' & -> & ? & Hs).
    exists j'. rewrite Hs. auto.
  - intros (j & Hj & Hpc & Hf).
    destruct (Hsel eq_refl j Hj Hpc) as (j' & -> & ? & Hs).
    exists j'. rewrite Hs. auto.
  - rewrite Hsrv, Hrun. tauto.
  - rewrite Hsrv, Hrun. tauto.
  - rewrite Hsrv, Hrun. tauto.
Qed.

Lemma fmap_server_insert (js : list Job) (i : nat) (j j' : Job) :
  js !! i = Some j -> server j' = server j ->
  server <$> <[i := j']> js = server <$> js.
Proof.
  intros Hi Hs. rewrite list_fmap_insert, Hs.
  apply list_insert_id. rewrite list_lookup_fmap, Hi. reflexivity.
Qed.

Lemma lookup_singleton_job (j0 j : Job) (i : nat) :
  [j0] !! i = Some j -> i = 0 /\ j = j0.
Proof.
  destruct i as [|i]; simpl; [intros [= ->]; auto | discriminate].
Qed.

Lemma exec_inv_insert (st : State) (i : nat) (j j' : Job) :
  jobs st !! i = Some j -> server j' = server j -> jobPc j' = jobPc j ->
  einv st -> einv (setJobs (<[i := j']> (jobs st)) st).
Proof.
  intros Hi Hs Hpc. apply exec_inv_jobs.
  - eapply fmap_server_insert; eassumption.
  - pose proof (running_insert (jobs st) i j j' Hi) as Hr.
    simpl in Hr. rewrite Hpc in Hr. lia.
  - intros _ j0 Hj0 Hp0. rewrite Hj0 in Hi |- *.
    apply lookup_singleton_job in Hi as [-> ->].
    exists j'. simpl. split; [reflexivity|]. split; congruence.
  - intros _ j0 Hj0 Hp0. rewrite Hj0 in Hi |- *.
    apply lookup_singleton_job in Hi as [-> ->].
    exists j'. simpl. split; [reflexivity|]. split; congruence.
Qed.

Lemma global_inv (st : State) :
  greach st -> Forall jinv (jobs st) /\ einv st.
Proof.
  revert st.
  apply (reachable_ind (fun st => Forall jinv (jobs st) /\ einv st)).
  - split; [constructor|]. unfold exec_inv. simpl.
    destruct singleServer; auto.
  - intros a st st' [Hjobs Hexec] Hstep. unfold step in Hstep.
    destruct a.
    + (* a signal *)
      destruct (execPc st) eqn:Hpc; try discriminate;
        injection Hstep as <-; (split; [exact Hjobs|]);
        unfold exec_inv in *; simpl; rewrite Hpc in *; exact Hexec.
    + (* a statement of Exec *)
      assert (Hd : dispatch_step FindServerByName FindServersByTag tagOrName
                     singleServer st = Some st').
      { destruct (execPc st); [..|discriminate]; exact Hstep. }
      clear Hstep. unfold dispatch_step in Hd. unfold exec_inv in *.
      destruct singleServer; destruct (execPc st) eqn:Hpc; simpl in *;
        try contradiction; try discriminate.
      * (* single server: resolution by name *)
        destruct (FindServerByName tagOrName) as [s|] eqn:HF;
          injection Hd as <-; simpl.
        -- split; [constructor; [apply job_inv_new | constructor]|].
           exists (newJob s). auto.
        -- split; [exact Hjobs | auto].
      * (* several servers: resolution by tag *)
        destruct Hexec as [Hnil Hwg].
        destruct (FindServersByTag tagOrName) as [|s l] eqn:HF;
          injection Hd as <-; simpl.
        -- split; [exact Hjobs | auto].
        -- split; [exact Hjobs|]. rewrite Hnil. simpl.
           repeat split; [discriminate | lia].
      * (* the loop *)
        destruct Hexec as (Hne & Hsrv & Hwg).
        destruct rest as [|s rest]; injection Hd as <-; simpl.
        -- split; [exact Hjobs|]. rewrite app_nil_r in Hsrv.
           simpl in Hwg. auto.
        -- split; [apply Forall_app; split;
                   [exact Hjobs | constructor; [apply job_inv_new | constructor]]|].
           split; [exact Hne|]. rewrite fmap_app, running_app. simpl.
           rewrite <- app_assoc. simpl. split; [exact Hsrv|].
           simpl in Hwg. lia.
      * (* serverWg.Wait() *)
        destruct Hexec as (Hne & Hsrv & Hwg).
        destruct (serverWg st) eqn:Hw; [|discriminate].
        injection Hd as <-. simpl. split; [exact Hjobs|]. auto.
    + (* a thread of a task *)
      assert (Hd : exists j t',
                 jobs st !! i = Some j
                 /\ exec_step ColorsFuncMap (server j) singleServer cmd
                      (cancelled st) a (task j) = Some t'
                 /\ st' = setJobs (<[i := {| server := server j;
                                             jobPc := jobPc j; task := t';
                                             printed := printed j |}]>
                                      (jobs st)) st).
      { destruct (execPc st); try discriminate;
          (destruct (jobs st !! i) as [j|]; [|discriminate]);
          (destruct (exec_step _ _ _ _ _ _ _) as [t'|] eqn:Ht;
           [|discriminate]);
          injection Hstep as <-; eauto. }
      clear Hstep. destruct Hd as (j & t' & Hi & Ht & ->). simpl.
      split.
      * apply Forall_insert; [exact Hjobs|].
        eapply job_inv_task; [|exact Ht].
        eapply Forall_lookup_1; eassumption.
      * apply exec_inv_insert with (j := j); auto.
    + (* the select on errCh after exec *)
      assert (Hd : exists j j',
                 jobs st !! i = Some j
                 /\ select_errCh bgRedHiWhite singleServer j = Some j'
                 /\ st' = setJobs (<[i := j']> (jobs st))
                            (if singleServer then setExecPc DReturned st
                             else st)
                 /\ forall msg code, execPc st <> DExited msg code).
      { destruct (execPc st); try discriminate;
          (destruct (jobs st !! i) as [j|]; [|discriminate]);
          (destruct (select_errCh _ _ _) as [j'|] eqn:Hj; [|discriminate]);
          injection Hstep as <-; exists j, j';
          repeat split; try reflexivity; try assumption;
          intros; discriminate. }
      clear Hstep. destruct Hd as (j & j' & Hi & Hsel & -> & Hne).
      pose proof (Forall_lookup_1 _ _ _ _ Hjobs Hi) as Hj.
      destruct (job_inv_select j j' Hj Hsel) as (Hj' & Hsrv & Hpc & Hpc').
      split.
      * destruct singleServer; simpl; apply Forall_insert; assumption.
      * destruct singleServer eqn:Hs.
        -- (* single server: Exec returns *)
           unfold exec_inv in *. simpl.
           destruct (execPc st) eqn:Hpcs; try contradiction.
           ++ rewrite Hexec in Hi. discriminate.
           ++ destruct Hexec as (j0 & Hj0 & Hp0 & HF).
              rewrite Hj0 in Hi |- *.
              apply lookup_singleton_job in Hi as [-> ->].
              exists j'. simpl. split; [reflexivity|]. split; congruence.
           ++ destruct Hexec as (j0 & Hj0 & Hp0 & HF).
              rewrite Hj0 in Hi.
              apply lookup_singleton_job in Hi as [-> ->]. congruence.
           ++ exfalso. eapply Hne. reflexivity.
        -- (* several servers *)
           rewrite <- Hs. apply exec_inv_jobs; try (rewrite Hs; exact Hexec).
           ++ eapply fmap_server_insert; eassumption.
           ++ pose proof (running_insert (jobs st) i j j' Hi) as Hr.
              simpl in Hr. rewrite Hpc, Hpc' in Hr. lia.
           ++ congruence.
           ++ congruence.
    + (* deferred serverWg.Done() *)
      assert (Hd : exists j,
                 singleServer = false
                 /\ jobs st !! i = Some j /\ jobPc j = JSelected
                 /\ st' = setServerWg (serverWg st - 1)
                            (setJobs (<[i := {| server := server j;
                                               jobPc := JDone;
                                               task := task j;
                                               printed := printed j |}]>
                                        (jobs st)) st)).
      { destruct (execPc st); try discriminate;
          (destruct singleServer; [discriminate|]);
          (destruct (jobs st !! i) as [j|]; [|discriminate]);
          (destruct (jobPc j) eqn:Hj; try discriminate);
          injection Hstep as <-; exists j; auto. }
      clear Hstep. destruct Hd as (j & Hs & Hi & Hpc & ->).
      pose proof (Forall_lookup_1 _ _ _ _ Hjobs Hi) as [Hch Hj].
      rewrite Hpc in Hj. split.
      * simpl. apply Forall_insert; [exact Hjobs|].
        split; simpl; assumption.
      * pose proof (running_insert (jobs st) i j
                      {| server := server j; jobPc := JDone;
                         task := task j; printed := printed j |} Hi) as Hr.
        simpl in Hr. rewrite Hpc in Hr.
        pose proof (fmap_server_insert (jobs st) i j
                      {| server := server j; jobPc := JDone;
                         task := task j; printed := printed j |}
                      Hi eq_refl) as Hsrv.
        unfold exec_inv in *. rewrite Hs in *. simpl.
        destruct (execPc st); try contradiction;
          rewrite ?Hsrv; decompose [and] Hexec;
          repeat split; try assumption; try lia.
        all: match goal with
             | H : jobs _ = [] |- _ => rewrite H in Hi; discriminate Hi
             end.
Qed.

End DispatcherFacts.

(* ------------------------------------------------------------------ *)
(** ** What [Exec] guarantees *)

Section DispatcherProperties.

Variable ColorsFuncMap : string -> option ColorFunc.
Variable FindServerByName : string -> option Server.
Variable FindServersByTag : string -> list Server.
Variable bgRedHiWhite : string -> string.
Variable tagOrName : string.
Variable cmd : string.

Local Abbreviation gstep :=
  (step ColorsFuncMap FindServerByName FindServersByTag bgRedHiWhite
     tagOrName cmd).
Local Abbreviation greach :=
  (reachable ColorsFuncMap FindServerByName FindServersByTag bgRedHiWhite
     tagOrName cmd).
Local Abbreviation ginv :=
  (global_inv ColorsFuncMap FindServerByName FindServersByTag bgRedHiWhite
     tagOrName cmd).

(** C1.  In multi-server mode the tasks started so far are those of the
    first servers found by tag, one task per server and in their order; and
    when [Exec] has returned there is exactly one task for each of the [N]
    servers, and every one of them has terminated: its [exec] has returned
    and its goroutine has run to its end. *)
Theorem multi_exec_joins_all_tasks (st : State) :
  greach false st ->
  (server <$> jobs st) `prefix_of` FindServersByTag tagOrName
  /\ (execPc st = DReturned ->
      server <$> jobs st = FindServersByTag tagOrName
      /\ length (jobs st) = length (FindServersByTag tagOrName)
      /\ Forall (fun j => jobPc j = JDone /\ mainPc (task j) = MReturned)
           (jobs st)).
Proof.
  intros Hreach. destruct (ginv false st Hreach) as [Hjobs Hexec].
  unfold exec_inv in Hexec. split.
  - destruct (execPc st); try contradiction.
    + destruct Hexec as [-> _]. apply prefix_nil.
    + destruct Hexec as (_ & <- & _). apply prefix_app_r. reflexivity.
    + destruct Hexec as (_ & <- & _). reflexivity.
    + destruct Hexec as (_ & <- & _). reflexivity.
    + destruct Hexec as (-> & _). apply prefix_nil.
  - intros Hret. rewrite Hret in Hexec. destruct Hexec as (_ & Hsrv & Hrun).
    split; [exact Hsrv|]. split.
    + rewrite <- Hsrv. rewrite length_fmap. reflexivity.
    + apply running_zero in Hrun.
      apply Forall_forall. intros j Hj.
      pose proof (proj1 (Forall_forall _ _) Hrun j Hj) as Hd.
      pose proof (proj1 (Forall_forall _ _) Hjobs j Hj) as [_ Hpc].
      simpl in Hd. rewrite Hd in Hpc. split; [exact Hd | apply Hpc].
Qed.


(** C5.  When the target resolves to no server, no task is ever started:
    all [Exec] does is call [utils.Exit] with a message that names the
    failure and status 1, and after that call nothing happens any more. *)
Theorem unresolved_target_exits_first (singleServer : bool) (st : State) :
  (if singleServer then FindServerByName tagOrName = None
   else FindServersByTag tagOrName = []) ->
  greach singleServer st ->
  let msg := if singleServer then "server not found"
             else "tagged server not found" in
  jobs st = []
  /\ ((execPc st = DStart
       /\ gstep singleServer AExec st = Some (Exit msg 1 st))
      \/ (execPc st = DExited msg 1
          /\ forall a, gstep singleServer a st = None)).
Proof.
  intros Hnone Hreach msg.
  destruct (ginv singleServer st Hreach) as [_ Hexec].
  unfold exec_inv in Hexec. unfold step, dispatch_step. subst msg.
  destruct singleServer; destruct (execPc st) eqn:Hpc; try contradiction.
  - split; [exact Hexec|]. left. rewrite Hnone. auto.
  - destruct Hexec as (j & _ & _ & HF). congruence.
  - destruct Hexec as (j & _ & _ & HF). congruence.
  - destruct Hexec as (Hj & _ & -> & ->). split; [exact Hj|]. right. auto.
  - destruct Hexec as [Hj _]. split; [exact Hj|]. left. rewrite Hnone. auto.
  - destruct Hexec as [Hne _]. contradiction.
  - destruct Hexec as [Hne _]. contradiction.
  - destruct Hexec as [Hne _]. contradiction.
  - destruct Hexec as (Hj & _ & -> & ->). split; [exact Hj|]. right. auto.
Qed.

(** X14.  The only call of [utils.Exit] is the one made when the target
    resolves to no server, with status 1 and before any task: when the
    target resolves, no run of [Exec] ends the process, whatever the tasks
    report.  And once every goroutine of the loop has finished, whatever it
    reported, [serverWg.Wait()] lets [Exec] return. *)
Theorem only_resolution_failure_exits (singleServer : bool) (st : State) :
  greach singleServer st ->
  (forall msg code,
     execPc st = DExited msg code ->
     code = 1%Z /\ jobs st = []
     /\ (if singleServer then FindServerByName tagOrName = None
         else FindServersByTag tagOrName = []))
  /\ ((if singleServer then FindServerByName tagOrName <> None
       else FindServersByTag tagOrName <> []) ->
      forall msg code, execPc st <> DExited msg code)
  /\ (execPc st = DWait ->
      Forall (fun j => jobPc j = JDone) (jobs st) ->
      gstep singleServer AExec st = Some (setExecPc DReturned st)).
Proof.
  intros Hreach. destruct (ginv singleServer st Hreach) as [_ Hexec].
  unfold exec_inv in Hexec.
  assert (Hex : forall msg code,
             execPc st = DExited msg code ->
             code = 1%Z /\ jobs st = []
             /\ (if singleServer then FindServerByName tagOrName = None
                 else FindServersByTag tagOrName = [])).
  { intros msg code Hpc. rewrite Hpc in Hexec.
    destruct singleServer; tauto. }
  split; [exact Hex|]. split.
  - intros Hres msg code Hpc. destruct (Hex msg code Hpc) as (_ & _ & Hnone).
    destruct singleServer; contradiction.
  - intros Hw Hall. unfold step, dispatch_step. rewrite Hw in *.
    destruct singleServer; [contradiction|].
    destruct Hexec as (_ & _ & Hwg). apply running_zero in Hall.
    rewrite Hwg, Hall. reflexivity.
Qed.

End DispatcherProperties.

(* ------------------------------------------------------------------ *)
(** ** Two errors in one task *)

(** A task none of whose threads can move stays as it is. *)
Lemma stuck_forever ColorsFuncMap s singleServer cmd (t : Task) :
  (forall c a, exec_step ColorsFuncMap s singleServer cmd c a t = None) ->
  forall sched c st',
    task_run ColorsFuncMap s singleServer cmd sched (c, t) = Some st' ->
    snd st' = t.
Proof.
  intros Hnone sched.
  induction sched as [|x sched IH]; intros c st' Hrun; simpl in Hrun.
  - injection Hrun as <-. reflexivity.
  - destruct x as [|a]; simpl in Hrun.
    + exact (IH true st' Hrun).
    + rewrite Hnone in Hrun. discriminate.
Qed.

(** C3 fails on [Demo.broken], where the read of the pipe fails and the
    session reports an error too.  The relay of standard output sends the
    read error, which fills the one slot of [errCh]; the error-copy
    goroutine then stands at the send of a second error, and this send
    blocks.  The main goroutine waits for that goroutine in [errWg.Wait()],
    nothing in the task can move any more, and [exec] never returns. *)
Theorem exec_second_error_blocks :
  task_run Demo.colors Demo.broken false "uptime" Demo.twoErrors
    (false, newTask) = Some Demo.brokenStuck
  /\ sends (trace (snd Demo.brokenStuck))
     = [(ThOut, "read tcp: connection reset by peer")]
  /\ pending_sends (snd Demo.brokenStuck)
     = [(ThErr, "wait: remote command exited without exit status")]
  /\ errCh (snd Demo.brokenStuck) = Some "read tcp: connection reset by peer"
  /\ mainPc (snd Demo.brokenStuck) = MWait
  /\ (forall c a,
        exec_step Demo.colors Demo.broken false "uptime" c a
          (snd Demo.brokenStuck) = None)
  /\ (forall sched st',
        task_run Demo.colors Demo.broken false "uptime" sched
          (false, snd Demo.brokenStuck) = Some st' ->
        snd st' = snd Demo.brokenStuck /\ mainPc (snd st') <> MReturned).
Proof.
  split; [vm_compute; reflexivity|].
  do 4 (split; [vm_compute; reflexivity|]).
  assert (Hnone : forall c a,
             exec_step Demo.colors Demo.broken false "uptime" c a
               (snd Demo.brokenStuck) = None).
  { intros c a. destruct a; vm_compute; reflexivity. }
  split; [exact Hnone|].
  intros sched st' Hrun.
  apply (stuck_forever _ _ _ _ _ Hnone) in Hrun.
  rewrite Hrun. split; [reflexivity|]. vm_compute. discriminate.
Qed.

(* ------------------------------------------------------------------ *)
(** ** Where the code departs from the wording of the specification *)




(** C6 as worded does not hold: on [Demo.web1] the session can signal its
    end before the goroutine that prints to stdout has run, and [Exec]
    has then returned with nothing written, although the stream holds a
    line. *)
Lemma passthrough_cut_short :
  ~ (forall st,
       reachable Demo.colors Demo.byName Demo.byTag Demo.bgRedHiWhite
         "web1" "uptime" true st ->
       passthrough_as_specified st).
Proof.
  intros H.
  assert (Hreach : reachable Demo.colors Demo.byName Demo.byTag
                     Demo.bgRedHiWhite "web1" "uptime" true Cases.unreadEnd).
  { exists ([AExec] ++ Demo.onTask 0 Cases.unreadRun ++ [ASelect 0]).
    vm_compute. reflexivity. }
  specialize (H _ Hreach eq_refl).
  apply Forall_cons_1 in H as [Hw _]. discriminate Hw.
Qed.

(* ------------------------------------------------------------------ *)
(** ** The statements on concrete runs *)

(** The three servers of the tag "mixed", the second of which is down:
    [Exec] returns with three terminated tasks. *)
Lemma multi_exec_joins_all_tasks_witness :
  reachable Demo.colors Demo.byName Demo.byTag Demo.bgRedHiWhite
    "mixed" "uptime" false Demo.mixedEnd
  /\ server <$> jobs Demo.mixedEnd = [Demo.web1; Demo.down; Demo.web2]
  /\ length (jobs Demo.mixedEnd) = 3
  /\ Forall (fun j => jobPc j = JDone /\ mainPc (task j) = MReturned)
       (jobs Demo.mixedEnd).
Proof.
  assert (Hreach : reachable Demo.colors Demo.byName Demo.byTag
                     Demo.bgRedHiWhite "mixed" "uptime" false Demo.mixedEnd).
  { exists Demo.mixedRun. vm_compute. reflexivity. }
  split; [exact Hreach|].
  exact (proj2 (multi_exec_joins_all_tasks _ _ _ _ _ _ _ Hreach) eq_refl).
Defined.



(** The tag "nonexistent". *)
Lemma unresolved_target_exits_first_witness :
  Demo.byTag "nonexistent" = []
  /\ reachable Demo.colors Demo.byName Demo.byTag Demo.bgRedHiWhite
       "nonexistent" "uptime" false Demo.unresolvedEnd
  /\ jobs Demo.unresolvedEnd = []
  /\ execPc Demo.unresolvedEnd = DExited "tagged server not found" 1.
Proof.
  assert (Hreach : reachable Demo.colors Demo.byName Demo.byTag
                     Demo.bgRedHiWhite "nonexistent" "uptime" false
                     Demo.unresolvedEnd).
  { exists [AExec]. vm_compute. reflexivity. }
  split; [reflexivity|]. split; [exact Hreach|].
  split; [|reflexivity].
  exact (proj1 (unresolved_target_exits_first Demo.colors Demo.byName
                  Demo.byTag Demo.bgRedHiWhite "nonexistent" "uptime" false
                  Demo.unresolvedEnd eq_refl Hreach)).
Defined.

(** The relay of [Demo.web2] in single-server mode: [exec] has returned
    and nothing is written yet; the copy still runs to its end, and then
    the pieces are written as they came, the unfinished last line
    included. *)
Lemma single_server_passthrough_witness :
  task_reachable Demo.colors Demo.web2 true "uptime" Cases.unreadTask
  /\ writes (trace (snd Cases.unreadTask)) = []
  /\ exists st',
       task_run Demo.colors Demo.web2 true "uptime"
         (copying (stdoutChunks (remote Demo.web2)) (snd Cases.unreadTask))
         Cases.unreadTask = Some st'
       /\ outPc (snd st') = OtDone
       /\ Bytes.cat (writes (trace (snd st')))
          = Bytes.cat (stdoutChunks (remote Demo.web2)).
Proof.
  assert (Hreach : task_reachable Demo.colors Demo.web2 true "uptime"
                     Cases.unreadTask).
  { exists false, (map SDo Cases.unreadRun). vm_compute. reflexivity. }
  assert (Hend : stdoutEnd (remote Demo.web2) <> EndPending) by discriminate.
  split; [exact Hreach|]. split; [reflexivity|].
  destruct (single_server_passthrough _ _ _ _ Hreach) as (_ & _ & _ & Hlive).
  exact (Hlive eq_refl eq_refl eq_refl Hend).
Defined.

(** The run on the tag "mixed" does not end the process. *)
Lemma only_resolution_failure_exits_witness :
  reachable Demo.colors Demo.byName Demo.byTag Demo.bgRedHiWhite
    "mixed" "uptime" false Demo.mixedEnd
  /\ Demo.byTag "mixed" <> []
  /\ (forall msg code, execPc Demo.mixedEnd <> DExited msg code)
  /\ execPc Demo.mixedEnd = DReturned.
Proof.
  assert (Hreach : reachable Demo.colors Demo.byName Demo.byTag
                     Demo.bgRedHiWhite "mixed" "uptime" false Demo.mixedEnd).
  { exists Demo.mixedRun. vm_compute. reflexivity. }
  assert (Hres : Demo.byTag "mixed" <> []) by discriminate.
  split; [exact Hreach|]. split; [exact Hres|]. split; [|reflexivity].
  destruct (only_resolution_failure_exits Demo.colors Demo.byName Demo.byTag
              Demo.bgRedHiWhite "mixed" "uptime" false Demo.mixedEnd Hreach)
    as (_ & Hno & _).
  exact (Hno Hres).
Defined.

(** A task on [Demo.failing] ended by cancellation. *)
Lemma exec_termination_order_witness :
  dial (remote Demo.failing) = None
  /\ newSession (remote Demo.failing) = None
  /\ task_reachable Demo.colors Demo.failing false "uptime"
       Demo.failingCancelled
  /\ mainPc (snd Demo.failingCancelled) = MReturned
  /\ selected (trace (snd Demo.failingCancelled))
  /\ before EvClientClose EvWaitReturn (trace (snd Demo.failingCancelled))
  /\ before (EvSend ThErr "Process exited with status 1") EvWaitReturn
       (trace (snd Demo.failingCancelled))
  /\ errCh (snd Demo.failingCancelled) = Some "Process exited with status 1".
Proof.
  assert (Hreach : task_reachable Demo.colors Demo.failing false "uptime"
                     Demo.failingCancelled).
  { exists false, Demo.cancelledRun. vm_compute. reflexivity. }
  do 2 (split; [reflexivity|]). split; [exact Hreach|].
  split; [reflexivity|].
  destruct (exec_termination_order Demo.colors Demo.failing false "uptime"
              Demo.failingCancelled eq_refl eq_refl Hreach eq_refl)
    as (Hsel & _ & _ & Hclose & _ & Herr & _).
  split; [exact Hsel|]. split; [exact Hclose|].
  destruct (Herr _ eq_refl) as (_ & Hsend & Hch).
  split; [exact Hsend | exact Hch].
Defined.

(** A server that is down, and one that refuses the session. *)
Lemma exec_open_failure_witness :
  (task_reachable Demo.colors Demo.down false "uptime" Demo.downEnd
   /\ dial (remote Demo.down) = Some "dial tcp: i/o timeout"
   /\ trace (snd Demo.downEnd)
      = [EvSshClient (Some "dial tcp: i/o timeout");
         EvSend ThMain "dial tcp: i/o timeout"; EvReturn])
  /\ (task_reachable Demo.colors Demo.nosession false "uptime"
        Demo.nosessionEnd
      /\ newSession (remote Demo.nosession)
         = Some "ssh: rejected: administratively prohibited"
      /\ exists n st',
           n <= 4
           /\ task_run Demo.colors Demo.nosession false "uptime"
                (repeat (SDo TMain) n) Demo.nosessionEnd = Some st'
           /\ mainPc (snd st') = MReturned).
Proof.
  assert (Hdown : task_reachable Demo.colors Demo.down false "uptime"
                    Demo.downEnd).
  { exists false, [SDo TMain; SDo TMain]. vm_compute. reflexivity. }
  assert (Hno : task_reachable Demo.colors Demo.nosession false "uptime"
                  Demo.nosessionEnd).
  { exists false, [SDo TMain; SDo TMain; SDo TMain]. vm_compute. reflexivity. }
  split.
  - split; [exact Hdown|]. split; [reflexivity|].
    destruct (proj1 (exec_open_failure Demo.colors Demo.down false "uptime"
                       "dial tcp: i/o timeout" Demo.downEnd Hdown) eq_refl)
      as (_ & _ & Hret & _).
    exact (proj1 (Hret eq_refl)).
  - split; [exact Hno|]. split; [reflexivity|].
    destruct (proj2 (exec_open_failure Demo.colors Demo.nosession false
                       "uptime" "ssh: rejected: administratively prohibited"
                       Demo.nosessionEnd Hno) eq_refl eq_refl)
      as (_ & _ & Hrun).
    exact Hrun.
Defined.

(** [Demo.web1], whose session closes its error signal without a value. *)
Lemma closed_error_signal_sends_nothing_witness :
  errorSig (remote Demo.web1) = SigClosed
  /\ task_reachable Demo.colors Demo.web1 false "uptime" Demo.web1Lines
  /\ sends (trace (snd Demo.web1Lines)) = []
  /\ pending_sends (snd Demo.web1Lines) = []
  /\ errCh (snd Demo.web1Lines) = None.
Proof.
  assert (Hreach : task_reachable Demo.colors Demo.web1 false "uptime"
                     Demo.web1Lines).
  { exists false, Demo.fullRun. vm_compute. reflexivity. }
  split; [reflexivity|]. split; [exact Hreach|].
  destruct (closed_error_signal_sends_nothing Demo.colors Demo.web1 false
              "uptime" Demo.web1Lines eq_refl Hreach)
    as (_ & _ & _ & Hquiet).
  apply Hquiet; [reflexivity | reflexivity |].
  right. split; [intros e; discriminate|].
  eexists Demo.red, _, _. repeat split.
Defined.

(* ------------------------------------------------------------------ *)
(** ** Further checks *)

(** X11.  [serverWg.Done()] is never called on a counter that is zero: the
    truncated subtraction of the model never truncates. *)
Lemma serverWg_Done_positive ColorsFuncMap FindServerByName FindServersByTag
  bgRedHiWhite tagOrName cmd singleServer (i : nat) (st st' : State) :
  reachable ColorsFuncMap FindServerByName FindServersByTag bgRedHiWhite
    tagOrName cmd singleServer st ->
  step ColorsFuncMap FindServerByName FindServersByTag bgRedHiWhite
    tagOrName cmd singleServer (AWgDone i) st = Some st' ->
  1 <= serverWg st /\ serverWg st' + 1 = serverWg st.
Proof.
  intros Hreach Hstep.
  destruct (global_inv _ _ _ _ _ _ _ st Hreach) as [_ Hexec].
  unfold step in Hstep.
  assert (Hd : exists j, singleServer = false /\ jobs st !! i = Some j
                         /\ jobPc j = JSelected
                         /\ serverWg st' = serverWg st - 1).
  { destruct (execPc st); try discriminate;
      (destruct singleServer; [discriminate|]);
      (destruct (jobs st !! i) as [j|]; [|discriminate]);
      (destruct (jobPc j) eqn:Hj; try discriminate);
      injection Hstep as <-; exists j; auto. }
  destruct Hd as (j & Hs & Hi & Hpc & Hwg).
  pose proof (running_insert (jobs st) i j
                {| server := server j; jobPc := JDone;
                   task := task j; printed := printed j |} Hi) as Hr.
  simpl in Hr. rewrite Hpc in Hr.
  unfold exec_inv in Hexec. rewrite Hs in Hexec.
  destruct (execPc st); try contradiction; decompose [and] Hexec;
    try lia;
    match goal with
    | H : jobs _ = [] |- _ => rewrite H in Hi; discriminate Hi
    end.
Qed.

(** The scenario of one server and the command whose output is "hi":
    [Exec("web1", cmd, true)] returns, what was written is that line as it
    came, and nothing else was printed. *)
Example single_run_web1 :
  exists st,
    run Demo.colors Demo.byName Demo.byTag Demo.bgRedHiWhite
      "web1" "uptime" true Demo.singleRun initial = Some st
    /\ execPc st = DReturned
    /\ map (fun j => (writes (trace (task j)), printed j)) (jobs st)
       = [(["hi" +++ Bytes.nl], [])].
Proof.
  eexists. split; [vm_compute; reflexivity|].
  split; vm_compute; reflexivity.
Qed.

(** The scenario of three servers of which the second is down: exactly one
    error is reported, under the name of that server; the two others are
    relayed in full; [Exec] returns. *)
Example mixed_run_reports :
  execPc Demo.mixedEnd = DReturned
  /\ map (fun j => (Name (server j), printed j)) (jobs Demo.mixedEnd)
     = [("web1", []);
        ("down", [Demo.bgRedHiWhite "down:  dial tcp: i/o timeout"; Bytes.nl]);
        ("web2", [])]
  /\ map (fun j => outPc (task j)) (jobs Demo.mixedEnd)
     = [OtDone; OtIdle; OtDone].
Proof.
  repeat split; vm_compute; reflexivity.
Qed.

(* ================================================================== *)
(** * More about [exec] *)

(** The schedule [finishing] does bring a task to its return, from any
    state in which the bookkeeping of the goroutines holds, the main
    goroutine is not at a failed opening, and the send of the error-copy
    goroutine, if it has one to make, finds the slot free. *)
Lemma finishing_runs ColorsFuncMap (s : Server) singleServer cmd
  (c : bool) (t : Task) :
  dial (remote s) = None -> newSession (remote s) = None ->
  idle_inv t -> wg_inv t ->
  (forall e, mainPc t <> MDialFail e /\ mainPc t <> MSessionFail e) ->
  (errorSig (remote s) = SigClosed /\ (forall e, errPc t <> CpSend e)
   \/ (exists e, errorSig (remote s) = SigError e) /\ slot_free t) ->
  doneSig (remote s) = true \/ c = true ->
  exists st',
    task_run ColorsFuncMap s singleServer cmd
      (map SDo (finishing (errorSig (remote s))
                  (if doneSig (remote s) then TSelDone else TSelCtx)
                  (mainPc t) (errPc t)))
      (c, t) = Some st'
    /\ mainPc (snd st') = MReturned.
Proof.
  destruct s as [name [dl ns rd dn sg chunks fin color]].
  destruct t as [mp ep op ch wg tr].
  unfold idle_inv, wg_inv, slot_free.
  intros Hd Hn Hidle Hwg Hfail Hsig Hsel.
  simpl in Hd, Hn, Hidle, Hwg, Hfail, Hsig, Hsel. subst dl ns.
  destruct dn; [|destruct Hsel as [Hsel|Hsel]; [discriminate Hsel|]; subst c];
    (destruct Hsig as [[-> Hns] | [[e ->] Hfree]]);
    destruct mp;
    try match goal with
      | H : forall _, MDialFail ?x <> _ /\ _ |- _ =>
          exfalso; apply (proj1 (H x)); reflexivity
      | H : forall _, MSessionFail ?x <> _ /\ _ |- _ =>
          exfalso; apply (proj2 (H x)); reflexivity
      end;
    destruct ep; simpl in Hidle, Hwg; subst wg;
    try (destruct Hidle as [Hi1 ?]; try discriminate Hi1; subst op);
    try congruence;
    try (exfalso; eapply Hns; reflexivity);
    try (simpl in Hfree; subst ch);
    match goal with
    | |- exists st', ?run = Some st' /\ _ =>
        let v := eval vm_compute in run in
        match v with
        | Some ?x =>
            exists x; split; [vm_compute; reflexivity | reflexivity]
        end
    end.
Qed.

Section MoreTaskFacts.

Variable ColorsFuncMap : string -> option ColorFunc.
Variable s : Server.
Variable singleServer : bool.
Variable cmd : string.

Local Abbreviation r := (remote s).
Local Abbreviation estep := (exec_step ColorsFuncMap s singleServer cmd).
Local Abbreviation trun := (task_run ColorsFuncMap s singleServer cmd).
Local Abbreviation treach := (task_reachable ColorsFuncMap s singleServer cmd).

Lemma slot_inv_step (c : bool) (a : TAction) (t t' : Task) :
  slot_inv t -> estep c a t = Some t' -> slot_inv t'.
Proof.
  unfold slot_inv. intros Hinv Hstep.
  destruct a; step_cases Hstep; simpl;
    rewrite ?sends_app; simpl; rewrite ?app_nil_r; try exact Hinv.
  all: destruct Hinv as [[Hch Hs]|(th & e' & Hch & Hs)]; [|congruence];
    right; eexists _, _; rewrite Hs; split; reflexivity.
Qed.

(** X1.  Inside [exec] at most one send on [errCh] ever completes: the slot is
    empty and nothing was sent, or it holds the one error sent so far.  A
    thread that stands at a send while the slot is full cannot move. *)
Theorem one_send_completes_within_exec (st : bool * Task) :
  treach st ->
  slot_inv (snd st)
  /\ length (sends (trace (snd st))) <= 1
  /\ (errCh (snd st) <> None ->
      forall th e, send th e (snd st) = None).
Proof.
  intros Hreach.
  assert (Hslot : slot_inv (snd st)).
  { revert st Hreach. apply task_invariant.
    - left. split; reflexivity.
    - intros c a t t'. apply slot_inv_step. }
  split; [exact Hslot|]. split.
  - destruct Hslot as [[_ ->]|(th & e & _ & ->)]; simpl; lia.
  - intros Hfull th e. unfold send.
    destruct (errCh (snd st)); [reflexivity | congruence].
Qed.

Lemma client_closes_app (l1 l2 : list Event) :
  client_closes (l1 ++ l2) = client_closes l1 + client_closes l2.
Proof.
  induction l1 as [|ev l1 IH]; simpl; [reflexivity|].
  destruct ev; simpl; rewrite ?IH; reflexivity.
Qed.

Lemma session_closes_app (l1 l2 : list Event) :
  session_closes (l1 ++ l2) = session_closes l1 + session_closes l2.
Proof.
  induction l1 as [|ev l1 IH]; simpl; [reflexivity|].
  destruct ev; simpl; rewrite ?IH; reflexivity.
Qed.

Lemma started_app (l1 l2 : list Event) :
  started (l1 ++ l2) = started l1 ++ started l2.
Proof.
  induction l1 as [|ev l1 IH]; simpl; [reflexivity|].
  destruct ev; simpl; rewrite ?IH; reflexivity.
Qed.

Lemma client_closes_In (tr : list Event) :
  0 < client_closes tr -> In EvClientClose tr.
Proof.
  induction tr as [|ev tr IH]; simpl; [lia|].
  destruct ev; auto.
Qed.

Lemma closes_inv_step (c : bool) (a : TAction) (t t' : Task) :
  dial r = None -> newSession r = None ->
  closes_inv t -> estep c a t = Some t' -> closes_inv t'.
Proof.
  unfold closes_inv. intros Hd Hn Hinv Hstep.
  destruct a; step_cases Hstep; simpl in *;
    repeat match goal with
      | H : mainPc _ = _ |- _ => rewrite H in Hinv
      end;
    rewrite ?client_closes_app, ?session_closes_app; simpl;
    try congruence; try contradiction;
    try solve [destruct (mainPc t); try contradiction;
               decompose [and] Hinv; repeat split;
               first [lia | trace_mono]].
  destruct Hinv as [Hc Hs]. repeat split; try lia.
  apply before_snoc. apply client_closes_In. lia.
Qed.

(** X2.  Every return of [exec] has released what it obtained.  When the client
    could not be obtained nothing is closed; when the session could not,
    the client is closed once; otherwise the client is closed twice (in the
    final [select] and by the deferred call), the session once, and the
    session after the first close of the client. *)
Theorem exec_closes_on_return (st : bool * Task) :
  treach st -> mainPc (snd st) = MReturned ->
  match dial r, newSession r with
  | Some _, _ =>
      client_closes (trace (snd st)) = 0
      /\ session_closes (trace (snd st)) = 0
  | None, Some _ =>
      client_closes (trace (snd st)) = 1
      /\ session_closes (trace (snd st)) = 0
  | None, None =>
      client_closes (trace (snd st)) = 2
      /\ session_closes (trace (snd st)) = 1
      /\ before EvClientClose EvSessionClose (trace (snd st))
  end.
Proof.
  intros Hreach Hret.
  destruct (dial r) as [e|] eqn:Hd; [|destruct (newSession r) as [e|] eqn:Hn].
  - pose proof (dial_failure_reach _ _ _ _ e st Hd Hreach) as Hst.
    destruct Hst as [H | [H | H]]; rewrite H in *; try discriminate.
    split; reflexivity.
  - pose proof (session_failure_reach _ _ _ _ e st Hd Hn Hreach) as Hst.
    destruct Hst as [H | [H | [H | [H | H]]]]; rewrite H in *;
      try discriminate.
    split; reflexivity.
  - assert (Hinv : closes_inv (snd st)).
    { revert st Hreach Hret. intros st Hreach _. revert st Hreach.
      apply task_invariant.
      - split; reflexivity.
      - intros c a t t'. apply closes_inv_step; assumption. }
    unfold closes_inv in Hinv. rewrite Hret in Hinv. exact Hinv.
Qed.

(** X3.  An error signal that never yields: a task that obtained its client and
    its session never gets past [errWg.Wait()], whether the session is
    done or the context cancelled. *)
Theorem silent_error_signal_never_returns (st : bool * Task) :
  dial r = None -> newSession r = None -> errorSig r = SigSilent ->
  treach st ->
  mainPc (snd st) <> MReturned
  /\ ~ In EvWaitReturn (trace (snd st))
  /\ (mainPc (snd st) = MWait -> estep (fst st) TMain (snd st) = None).
Proof.
  intros Hd Hn Hsig Hreach.
  destruct (task_end_reach _ _ _ _ st Hd Hn Hreach)
    as (Hidle & Hwg & Hev & Hfin).
  assert (Hcp : errPc (snd st) <> CpDone).
  { intros Hcp. unfold copy_evidence in Hev. rewrite Hcp in Hev.
    destruct Hev as [[H _]|(e & H & _)]; congruence. }
  assert (Hsend : forall e, errPc (snd st) <> CpSend e).
  { intros e Hcp'. unfold copy_evidence in Hev. rewrite Hcp' in Hev.
    destruct Hev as [H _]. congruence. }
  assert (Hnowait : ~ In EvWaitReturn (trace (snd st))).
  { revert st Hreach Hidle Hwg Hev Hfin Hcp Hsend.
    intros st Hreach _ _ _ _ _ _. revert st Hreach.
    apply (task_invariant_with _ _ _ _
      (fun t => idle_inv t /\ wg_inv t /\ copy_evidence r t)
      (fun t => ~ In EvWaitReturn (trace t))).
    - intros st Hreach.
      destruct (task_end_reach _ _ _ _ st Hd Hn Hreach) as (? & ? & ? & _).
      auto.
    - intros [].
    - intros c a t t' (Hi & Hw & He) Hno Hstep.
      unfold idle_inv, wg_inv, copy_evidence in *.
      destruct a; step_cases Hstep; simpl;
        intros Hin;
        repeat (apply in_app_or in Hin as [Hin|[Hin|[]]];
                try discriminate Hin);
        try (apply Hno; exact Hin).
      all: repeat match goal with
             | H : mainPc _ = _ |- _ => rewrite H in Hi
             end.
      all: destruct (errPc t) eqn:Hep; try lia; try congruence.
      all: try (destruct He as [[H _]|(e & H & _)]; congruence). }
  split; [|split; [exact Hnowait|]].
  - intros Hret. unfold finish_inv in Hfin. rewrite Hret in Hfin.
    destruct Hfin as (_ & (Hdone & _) & _). contradiction.
  - intros Hw. unfold exec_step, main_step. rewrite Hw.
    unfold idle_inv, wg_inv in *. rewrite Hw in Hidle.
    destruct (errPc (snd st)) eqn:Hep; try congruence.
    rewrite Hwg. reflexivity.
Qed.

Lemma ready_inv_step (c : bool) (a : TAction) (t t' : Task) :
  idle_inv t -> ready_inv r t -> estep c a t = Some t' -> ready_inv r t'.
Proof.
  unfold ready_inv, idle_inv. intros Hidle Hinv Hstep.
  destruct a; step_cases Hstep; simpl in *;
    repeat match goal with
      | H : mainPc _ = _ |- _ => rewrite H in Hidle
      | H : outPc _ = _ |- _ => rewrite H in Hinv
      end;
    rewrite ?writes_app, ?out_sends_app; simpl; rewrite ?app_nil_r;
    try exact Hinv;
    try solve [destruct (outPc t); destruct Hinv; split; trace_mono];
    try solve [destruct Hinv; split; trace_mono].
  - destruct Hidle as [_ Ho]. rewrite Ho in Hinv. exact Hinv.
  - split; [|reflexivity]. apply in_or_app. right. left. reflexivity.
  - split; [|reflexivity]. apply in_or_app. right. left. reflexivity.
Qed.

(** X4.  Nothing reaches standard output, and the relay reports nothing, before
    the session has signalled that it is ready; when it never does, nothing
    is ever written or reported by the relay. *)
Theorem relay_waits_for_ready (st : bool * Task) :
  treach st ->
  (writes (trace (snd st)) <> [] \/ out_sends (trace (snd st)) <> [] ->
   In EvReady (trace (snd st)) /\ readySig r = true)
  /\ (readySig r = false ->
      writes (trace (snd st)) = [] /\ out_sends (trace (snd st)) = []
      /\ forall e, outPc (snd st) <> OtSend e).
Proof.
  intros Hreach.
  assert (Hinv : ready_inv r (snd st)).
  { assert (H : idle_inv (snd st) /\ ready_inv r (snd st));
      [|exact (proj2 H)].
    revert st Hreach.
    apply (task_invariant _ _ _ _ (fun t => idle_inv t /\ ready_inv r t)).
    - repeat split.
    - intros c a t t' [Hi Hr] Hstep.
      split; [eapply idle_inv_step | eapply ready_inv_step]; eassumption. }
  unfold ready_inv in Hinv. split.
  - intros Hne. destruct (outPc (snd st)); try exact Hinv;
      destruct Hinv as [Hw Hs]; rewrite Hw, Hs in Hne; tauto.
  - intros Hr. destruct (outPc (snd st)) eqn:Hpc;
      try (destruct Hinv as [_ H]; congruence);
      destruct Hinv as [Hw Hs]; repeat split; try assumption;
      intros e; discriminate.
Qed.

Lemma started_inv_step (c : bool) (a : TAction) (t t' : Task) :
  started_inv cmd t -> estep c a t = Some t' -> started_inv cmd t'.
Proof.
  unfold started_inv. intros Hinv Hstep.
  destruct a; step_cases Hstep; simpl in *;
    repeat match goal with
      | H : mainPc _ = _ |- _ => rewrite H in Hinv
      end;
    rewrite ?started_app; simpl; rewrite ?app_nil_r;
    try exact Hinv;
    try solve [destruct (mainPc t); intuition trace_mono];
    try solve [intuition trace_mono].
  - split; [exact Hinv|]. apply in_or_app. right. left. reflexivity.
  - destruct Hinv as [Hs Hin]. rewrite Hs. split; [reflexivity|].
    apply before_snoc. exact Hin.
Qed.

(** X5.  The remote command is started at most once, it is the command [exec]
    was given, unchanged, and it is started only after the session was
    obtained; a task that obtained its session and returned started it
    exactly once. *)
Theorem command_started_once (st : bool * Task) :
  treach st ->
  (started (trace (snd st)) = []
   \/ (started (trace (snd st)) = [cmd]
       /\ dial r = None /\ newSession r = None
       /\ before (EvNewSession None) (EvGoPipeExec cmd) (trace (snd st))))
  /\ (dial r = None -> newSession r = None ->
      mainPc (snd st) = MReturned -> started (trace (snd st)) = [cmd]).
Proof.
  intros Hreach.
  assert (Hinv : started_inv cmd (snd st)).
  { revert st Hreach. apply task_invariant.
    - reflexivity.
    - intros c a t t'. apply started_inv_step. }
  destruct (dial r) as [e|] eqn:Hd; [|destruct (newSession r) as [e|] eqn:Hn].
  - pose proof (dial_failure_reach _ _ _ _ e st Hd Hreach) as Hst.
    split; [left | discriminate].
    destruct Hst as [H | [H | H]]; rewrite H; reflexivity.
  - pose proof (session_failure_reach _ _ _ _ e st Hd Hn Hreach) as Hst.
    split; [left | discriminate].
    destruct Hst as [H | [H | [H | [H | H]]]]; rewrite H; reflexivity.
  - destruct (task_end_reach _ _ _ _ st Hd Hn Hreach) as (_ & _ & _ & Hfin).
    assert (Hpre : mainPc (snd st) = MDeferClient
                   \/ mainPc (snd st) = MReturned ->
                   started (trace (snd st)) = [cmd]
                   /\ before (EvNewSession None) (EvGoPipeExec cmd)
                         (trace (snd st))).
    { clear Hinv Hfin. revert st Hreach.
      apply (task_invariant_with _ _ _ _
        (fun t => started_inv cmd t /\ finish_inv r t)
        (fun t => mainPc t = MDeferClient \/ mainPc t = MReturned ->
                  started (trace t) = [cmd]
                  /\ before (EvNewSession None) (EvGoPipeExec cmd) (trace t))).
      - intros st Hreach. split.
        + revert st Hreach. apply task_invariant.
          * reflexivity.
          * intros c a t t'. apply started_inv_step.
        + apply (task_end_reach _ _ _ _ st Hd Hn Hreach).
      - intros [H|H]; discriminate H.
      - intros c a t t' [Hs Hf] IH Hstep.
        unfold started_inv, finish_inv in *.
        destruct a; step_cases Hstep; simpl in *;
          repeat match goal with
            | H : mainPc _ = _ |- _ => rewrite H in Hs, Hf, IH
            end;
          rewrite ?started_app; simpl; rewrite ?app_nil_r;
          try contradiction; intros Hpc;
          first
            [ solve [destruct Hpc as [Hpc|Hpc]; discriminate Hpc]
            | solve [destruct (IH Hpc) as [Hi1 Hi2]; split; trace_mono]
            | solve [destruct (IH (or_introl eq_refl)) as [Hi1 Hi2];
                     split; trace_mono]
            | solve [destruct Hs as [Hi1 Hi2]; split; trace_mono] ]. }
    unfold started_inv in Hinv. split.
    + destruct (mainPc (snd st)) eqn:Hpc;
        first
          [ solve [left; exact Hinv]
          | solve [left; exact (proj1 Hinv)]
          | solve [right; destruct Hpre as [Hs Hb]; [auto|]; auto]
          | solve [right; destruct Hinv as [Hs Hb]; auto] ].
    + intros _ _ Hret. apply Hpre. right. exact Hret.
Qed.

Lemma idle_inv_reach (st : bool * Task) : treach st -> idle_inv (snd st).
Proof.
  revert st. apply task_invariant.
  - split; reflexivity.
  - intros c a t t'. apply idle_inv_step.
Qed.

Lemma relay_stopped_step (c : bool) (a : TAction) (t t' : Task) :
  idle_inv t -> relay_stopped t -> estep c a t = Some t' ->
  relay_stopped t' /\ writes (trace t') = writes (trace t).
Proof.
  unfold relay_stopped, idle_inv. intros Hidle Hinv Hstep.
  destruct a; step_cases Hstep; simpl in *;
    repeat match goal with
      | H : mainPc _ = _ |- _ => rewrite H in Hidle
      | H : outPc _ = _ |- _ => rewrite H in Hinv
      end;
    rewrite ?writes_app; simpl; rewrite ?app_nil_r;
    try contradiction; try (split; auto; fail).
  destruct Hidle as [_ Ho]. rewrite Ho in Hinv. contradiction.
Qed.

(** X6.  Once the relay of standard output has met an error or the end of the
    stream, nothing more is written for this server, whatever the other
    goroutines of the task and the context do afterwards. *)
Theorem stopped_relay_writes_nothing (sched : list TSched)
  (st st' : bool * Task) :
  treach st -> relay_stopped (snd st) ->
  trun sched st = Some st' ->
  relay_stopped (snd st')
  /\ writes (trace (snd st')) = writes (trace (snd st)).
Proof.
  revert st. induction sched as [|x sched IH]; intros st Hreach Hstop Hrun;
    simpl in Hrun.
  - injection Hrun as <-. auto.
  - destruct (task_step ColorsFuncMap s singleServer cmd x st)
      as [st1|] eqn:Hx; [|discriminate].
    pose proof (task_reachable_step _ _ _ _ x st st1 Hreach Hx) as Hreach1.
    destruct x as [|a]; simpl in Hx.
    + injection Hx as <-. apply (IH _ Hreach1 Hstop Hrun).
    + destruct (estep (fst st) a (snd st)) as [t1|] eqn:Ha; [|discriminate].
      injection Hx as <-.
      destruct (relay_stopped_step _ _ _ _ (idle_inv_reach st Hreach) Hstop Ha)
        as [Hstop1 Hw1].
      rewrite <- Hw1. apply (IH _ Hreach1 Hstop1 Hrun).
Qed.

Lemma slot_free_reach (st : bool * Task) :
  dial r = None -> newSession r = None ->
  quiet_stdout ColorsFuncMap s singleServer ->
  treach st -> slot_free (snd st).
Proof.
  intros Hd Hn Hq. revert st.
  apply (task_invariant_with _ _ _ _
    (fun t => idle_inv t /\ finish_inv r t
              /\ out_quiet ColorsFuncMap s singleServer t)
    slot_free).
  - intros st Hreach. split; [|split].
    + apply (task_end_reach _ _ _ _ st Hd Hn Hreach).
    + apply (task_end_reach _ _ _ _ st Hd Hn Hreach).
    + apply (out_quiet_reach _ _ _ _ st Hq Hreach).
  - reflexivity.
  - intros c a t t' (Hidle & Hfin & Hout) Hfree Hstep.
    unfold idle_inv, finish_inv, out_quiet, slot_free in *.
    destruct a; step_cases Hstep; simpl in *;
      repeat match goal with
        | H : mainPc _ = _ |- _ => rewrite H in Hfin, Hidle
        | H : outPc _ = _ |- _ => rewrite H in Hout
        | H : errPc _ = _ |- _ => rewrite H in Hfree
        end;
      try contradiction; try exact Hfree; try exact I; try reflexivity;
      try assumption.
    destruct Hidle as [He _]. rewrite He in Hfree. exact Hfree.
Qed.

(** X7.  [exec] can always run to its return when the session lets it: the
    client and the session were obtained, the error signal yields (a close,
    or a value while the relay of standard output meets no error), and the
    session is done or the context cancelled.  From every state reached, at
    most eleven statements bring [exec] to its return, whatever the relay
    of standard output is doing. *)
Theorem exec_can_finish (st : bool * Task) :
  dial r = None -> newSession r = None ->
  (errorSig r = SigClosed
   \/ (exists e, errorSig r = SigError e)
      /\ quiet_stdout ColorsFuncMap s singleServer) ->
  doneSig r = true \/ fst st = true ->
  treach st ->
  exists sched st',
    length sched <= 11
    /\ sched = map SDo (finishing (errorSig r)
                          (if doneSig r then TSelDone else TSelCtx)
                          (mainPc (snd st)) (errPc (snd st)))
    /\ trun sched st = Some st'
    /\ mainPc (snd st') = MReturned.
Proof.
  intros Hd Hn Hsig Hsel Hreach.
  destruct (task_end_reach _ _ _ _ st Hd Hn Hreach)
    as (Hidle & Hwg & Hev & Hfin).
  assert (Hfree : (exists e, errorSig r = SigError e) -> slot_free (snd st)).
  { intros He. destruct Hsig as [Hc|[_ Hq]].
    - destruct He as [e He]. congruence.
    - apply slot_free_reach; assumption. }
  assert (Hnosend : errorSig r = SigClosed ->
                    forall e, errPc (snd st) <> CpSend e).
  { intros Hc. apply (closed_signal_inv _ _ _ _ st Hc Hreach). }
  destruct (finishing_runs ColorsFuncMap s singleServer cmd (fst st) (snd st)
              Hd Hn Hidle Hwg) as (st' & Hrun & Hret).
  - intros e. unfold finish_inv in Hfin.
    split; intros Hpc; rewrite Hpc in Hfin; exact Hfin.
  - destruct Hsig as [Hc | [He Hq]]; [left | right]; auto.
  - exact Hsel.
  - exists (map SDo (finishing (errorSig r)
                       (if doneSig r then TSelDone else TSelCtx)
                       (mainPc (snd st)) (errPc (snd st)))), st'.
    split; [|split; [reflexivity|split; [|exact Hret]]].
    + rewrite length_map.
      destruct (mainPc (snd st)), (errPc (snd st)), (errorSig r);
        simpl; lia.
    + destruct st. exact Hrun.
Qed.


End MoreTaskFacts.

(* ================================================================== *)
(** * More about [Exec] *)

Section MoreDispatcherFacts.

Variable ColorsFuncMap : string -> option ColorFunc.
Variable FindServerByName : string -> option Server.
Variable FindServersByTag : string -> list Server.
Variable bgRedHiWhite : string -> string.
Variable tagOrName : string.
Variable cmd : string.
Variable singleServer : bool.

Local Abbreviation gstep :=
  (step ColorsFuncMap FindServerByName FindServersByTag bgRedHiWhite
     tagOrName cmd singleServer).
Local Abbreviation grun :=
  (run ColorsFuncMap FindServerByName FindServersByTag bgRedHiWhite
     tagOrName cmd singleServer).
Local Abbreviation greach :=
  (reachable ColorsFuncMap FindServerByName FindServersByTag bgRedHiWhite
     tagOrName cmd singleServer).
Local Abbreviation dstep :=
  (dispatch_step FindServerByName FindServersByTag tagOrName singleServer).

(** What one transition of [Exec] and its tasks is made of. *)
Lemma step_inv (a : Action) (st st' : State) :
  gstep a st = Some st' ->
  match a with
  | ASignal =>
      st' = {| execPc := execPc st; cancelled := true;
               jobs := jobs st; serverWg := serverWg st |}
  | AExec => dstep st = Some st'
  | ATask i ta =>
      exists j t',
        jobs st !! i = Some j
        /\ exec_step ColorsFuncMap (server j) singleServer cmd
             (cancelled st) ta (task j) = Some t'
        /\ st' = setJobs (<[i := {| server := server j; jobPc := jobPc j;
                                    task := t'; printed := printed j |}]>
                             (jobs st)) st
  | ASelect i =>
      exists j j',
        jobs st !! i = Some j
        /\ select_errCh bgRedHiWhite singleServer j = Some j'
        /\ st' = setJobs (<[i := j']> (jobs st))
                   (if singleServer then setExecPc DReturned st else st)
  | AWgDone i =>
      exists j,
        singleServer = false
        /\ jobs st !! i = Some j /\ jobPc j = JSelected
        /\ st' = setServerWg (serverWg st - 1)
                   (setJobs (<[i := {| server := server j; jobPc := JDone;
                                       task := task j;
                                       printed := printed j |}]>
                               (jobs st)) st)
  end.
Proof.
  unfold step. intros Hstep. destruct a.
  - destruct (execPc st); try discriminate; injection Hstep as <-;
      reflexivity.
  - destruct (execPc st); try discriminate; exact Hstep.
  - destruct (execPc st); try discriminate;
      (destruct (jobs st !! i) as [j|]; [|discriminate]);
      (destruct (exec_step _ _ _ _ _ _ _) as [t'|] eqn:Ht; [|discriminate]);
      injection Hstep as <-; eauto.
  - destruct (execPc st); try discriminate;
      (destruct (jobs st !! i) as [j|]; [|discriminate]);
      (destruct (select_errCh _ _ _) as [j'|] eqn:Hj; [|discriminate]);
      injection Hstep as <-; eauto.
  - destruct (execPc st); try discriminate;
      (destruct singleServer; [discriminate|]);
      (destruct (jobs st !! i) as [j|]; [|discriminate]);
      (destruct (jobPc j) eqn:Hj; try discriminate);
      injection Hstep as <-; exists j; auto.
Qed.

(** A statement of [Exec] itself leaves the context and the tasks as they
    are, or starts one new task. *)
Lemma dispatch_jobs (st st' : State) :
  dstep st = Some st' ->
  cancelled st' = cancelled st
  /\ (jobs st' = jobs st
      \/ exists s, jobs st' = jobs st ++ [newJob s] \/ jobs st' = [newJob s]).
Proof.
  unfold dispatch_step. intros Hd.
  destruct (execPc st); try discriminate.
  - destruct singleServer.
    + destruct (FindServerByName tagOrName) as [s|]; injection Hd as <-;
        simpl; eauto.
    + destruct (FindServersByTag tagOrName); injection Hd as <-; simpl; auto.
  - destruct rest as [|s rest]; injection Hd as <-; simpl; eauto.
  - destruct (serverWg st); [|discriminate]. injection Hd as <-. auto.
Qed.

(** A property of the tasks, possibly relative to the state of the
    context, that every kind of transition keeps holds of all tasks of
    every reachable state. *)
Lemma jobs_invariant (P : bool -> Job -> Prop) :
  (forall c s, P c (newJob s)) ->
  (forall c j, P c j -> P true j) ->
  (forall c j a t',
     P c j ->
     exec_step ColorsFuncMap (server j) singleServer cmd c a (task j)
       = Some t' ->
     P c {| server := server j; jobPc := jobPc j; task := t';
            printed := printed j |}) ->
  (forall c j j',
     P c j -> select_errCh bgRedHiWhite singleServer j = Some j' -> P c j') ->
  (forall c j,
     P c j -> jobPc j = JSelected ->
     P c {| server := server j; jobPc := JDone; task := task j;
            printed := printed j |}) ->
  forall st, greach st -> Forall (P (cancelled st)) (jobs st).
Proof.
  intros Hnew Hsig Htask Hsel Hdone.
  apply (reachable_ind _ _ _ _ _ _ _
           (fun st => Forall (P (cancelled st)) (jobs st))).
  - constructor.
  - intros a st st' IH Hstep. apply step_inv in Hstep. destruct a.
    + subst st'. simpl. eapply Forall_impl; [exact IH|].
      intros j. apply Hsig.
    + destruct (dispatch_jobs st st' Hstep) as [-> [-> | [s [-> | ->]]]].
      * exact IH.
      * apply Forall_app. split; [exact IH|].
        constructor; [apply Hnew | constructor].
      * constructor; [apply Hnew | constructor].
    + destruct Hstep as (j & t' & Hi & Ht & ->). simpl.
      apply Forall_insert; [exact IH|].
      eapply Htask; [|exact Ht]. eapply Forall_lookup_1; eassumption.
    + destruct Hstep as (j & j' & Hi & Hj & ->).
      assert (Hc : cancelled (setJobs (<[i:=j']> (jobs st))
                      (if singleServer then setExecPc DReturned st else st))
                   = cancelled st) by (destruct singleServer; reflexivity).
      rewrite Hc.
      assert (Hjs : jobs (setJobs (<[i:=j']> (jobs st))
                      (if singleServer then setExecPc DReturned st else st))
                    = <[i:=j']> (jobs st)) by reflexivity.
      rewrite Hjs. apply Forall_insert; [exact IH|].
      eapply Hsel; [|exact Hj]. eapply Forall_lookup_1; eassumption.
    + destruct Hstep as (j & Hs & Hi & Hpc & ->). simpl.
      apply Forall_insert; [exact IH|].
      apply Hdone; [|exact Hpc]. eapply Forall_lookup_1; eassumption.
Qed.

Lemma sends_grow ColorsFuncMap' s singleServer' cmd' c a t t' :
  exec_step ColorsFuncMap' s singleServer' cmd' c a t = Some t' ->
  exists extra, sends (trace t') = sends (trace t) ++ extra.
Proof.
  intros Hstep.
  destruct a; step_cases Hstep; simpl;
    rewrite ?sends_app; simpl; rewrite ?app_nil_r;
    first [ exists []; rewrite app_nil_r; reflexivity
          | eexists; reflexivity ].
Qed.

Lemma no_ctx_case_step ColorsFuncMap' s singleServer' cmd' a t t' :
  exec_step ColorsFuncMap' s singleServer' cmd' false a t = Some t' ->
  ~ In EvCtxDone (trace t) -> ~ In EvCtxDone (trace t').
Proof.
  intros Hstep Hno.
  destruct a; step_cases Hstep; simpl; try exact Hno;
    intros Hin;
    repeat (apply in_app_or in Hin as [Hin|[Hin|[]]];
            try discriminate Hin);
    apply Hno; exact Hin.
Qed.

Lemma step_cancelled (a : Action) (st st' : State) :
  gstep a st = Some st' ->
  cancelled st' = true <-> cancelled st = true \/ a = ASignal.
Proof.
  intros Hstep. apply step_inv in Hstep. destruct a.
  - subst st'. simpl. tauto.
  - destruct (dispatch_jobs st st' Hstep) as [-> _].
    split; [auto | intros [H|H]; [exact H | discriminate H]].
  - destruct Hstep as (j & t' & _ & _ & ->). simpl.
    split; [auto | intros [H|H]; [exact H | discriminate H]].
  - destruct Hstep as (j & j' & _ & _ & ->).
    destruct singleServer; simpl;
      (split; [auto | intros [H|H]; [exact H | discriminate H]]).
  - destruct Hstep as (j & _ & _ & _ & ->). simpl.
    split; [auto | intros [H|H]; [exact H | discriminate H]].
Qed.

Lemma run_cancelled (sched : list Action) (st0 st : State) :
  grun sched st0 = Some st ->
  cancelled st = true <-> cancelled st0 = true \/ In ASignal sched.
Proof.
  revert st0. induction sched as [|a sched IH]; intros st0 Hrun;
    simpl in Hrun.
  - injection Hrun as <-. simpl. tauto.
  - destruct (gstep a st0) as [st1|] eqn:Ha; [|discriminate].
    rewrite (IH st1 Hrun), (step_cancelled a st0 st1 Ha). simpl.
    split; [intros [[H|H]|H] | intros [H|[H|H]]]; auto.
Qed.

(** X8.  The case [<-ctx.Done()] of a task's final [select] is taken only after
    a signal (hangup, interrupt, terminate or quit) was delivered: the
    context is cancelled exactly when the run contains a signal, and in a
    run without one no task closes its client on cancellation. *)
Theorem ctx_case_needs_signal (sched : list Action) (st : State) :
  grun sched initial = Some st ->
  (cancelled st = true <-> In ASignal sched)
  /\ Forall (fun j => In EvCtxDone (trace (task j)) -> In ASignal sched)
       (jobs st).
Proof.
  intros Hrun.
  assert (Hc : cancelled st = true <-> In ASignal sched).
  { rewrite (run_cancelled sched initial st Hrun). simpl.
    split; [intros [H|H]; [discriminate H | exact H] | auto]. }
  split; [exact Hc|].
  assert (Hreach : greach st) by (exists sched; exact Hrun).
  pose proof (jobs_invariant
                (fun c j => In EvCtxDone (trace (task j)) -> c = true)) as Hinv.
  eapply Forall_impl; [apply Hinv; [| | | | |exact Hreach]|].
  - intros c s []. 
  - intros c j _ _. reflexivity.
  - intros c j a t' Hj Hstep. simpl. intros Hin.
    destruct c; [reflexivity|]. exfalso.
    eapply no_ctx_case_step; [exact Hstep | | exact Hin].
    intros Hin0. specialize (Hj Hin0). discriminate Hj.
  - intros c j j' Hj Hsel. unfold select_errCh in Hsel.
    destruct (jobPc j); try discriminate.
    destruct (mainPc (task j)); try discriminate.
    destruct (errCh (task j)); injection Hsel as <-; simpl; exact Hj.
  - intros c j Hj _. simpl. exact Hj.
  - intros j Hj Hin. apply Hc. apply Hj. exact Hin.
Qed.


Lemma report_inv_reach (st : State) :
  greach st -> Forall (report_inv bgRedHiWhite singleServer) (jobs st).
Proof.
  intros Hreach.
  apply (jobs_invariant (fun _ => report_inv bgRedHiWhite singleServer));
    [| | | | |exact Hreach].
  - intros _ s. split; [reflexivity|]. left. split; reflexivity.
  - intros _ j H. exact H.
  - intros c j a t' Hj Hstep. unfold report_inv in *. simpl.
    destruct (jobPc j).
    + destruct Hj as [Hp Hslot]. split; [exact Hp|].
      eapply slot_inv_step; eassumption.
    + destruct Hj as [[Hp Hch]|(th & e & rest & Hp & Hs)].
      * left. split; [exact Hp|]. eapply errCh_justified_step; eassumption.
      * right. destruct (sends_grow _ _ _ _ _ _ _ _ Hstep) as [extra He].
        exists th, e, (rest ++ extra). split; [exact Hp|].
        rewrite He, Hs. reflexivity.
    + destruct Hj as [[Hp Hch]|(th & e & rest & Hp & Hs)].
      * left. split; [exact Hp|]. eapply errCh_justified_step; eassumption.
      * right. destruct (sends_grow _ _ _ _ _ _ _ _ Hstep) as [extra He].
        exists th, e, (rest ++ extra). split; [exact Hp|].
        rewrite He, Hs. reflexivity.
  - intros _ j j' Hj Hsel. unfold report_inv, select_errCh in *.
    destruct (jobPc j); try discriminate.
    destruct (mainPc (task j)); try discriminate.
    destruct Hj as [Hp Hslot].
    destruct (errCh (task j)) as [e|] eqn:Hch; injection Hsel as <-; simpl.
    + right. destruct Hslot as [[H _]|(th & e' & He' & Hs)]; [congruence|].
      assert (e' = e) as -> by congruence.
      exists th, e, []. rewrite Hp. split; [reflexivity | exact Hs].
    + left. split; [exact Hp|]. intros e He. congruence.
  - intros _ j Hj Hpc. unfold report_inv in *. simpl.
    rewrite Hpc in Hj. exact Hj.
Qed.

(** X10.  What [Exec] prints for a task is at most one report, and it reports
    the first error whose send on [errCh] completed in that task; an error
    sent after it is never printed. *)
Theorem report_is_first_error (st : State) :
  greach st ->
  Forall (fun j =>
            printed j = []
            \/ exists th e rest,
                 printed j =
                   [report bgRedHiWhite singleServer (server j) e; Bytes.nl]
                 /\ sends (trace (task j)) = (th, e) :: rest)
    (jobs st).
Proof.
  intros Hreach. eapply Forall_impl; [exact (report_inv_reach st Hreach)|].
  intros j Hj. unfold report_inv in Hj.
  destruct (jobPc j); [left; apply Hj | |];
    (destruct Hj as [[Hp _]|H]; [left; exact Hp | right; exact H]).
Qed.

End MoreDispatcherFacts.

(* ------------------------------------------------------------------ *)
(** ** What the second error of a task costs *)

Lemma sends_In (th : Thread) (e : error) (tr : list Event) :
  In (EvSend th e) tr <-> In (th, e) (sends tr).
Proof.
  induction tr as [|ev tr IH]; simpl; [tauto|].
  destruct ev; simpl; rewrite <- IH;
    (split; [intros [H|H]; [try discriminate H | ] | ]); try tauto.
  - injection H as -> ->. left. reflexivity.
  - intros [H|H]; [left; injection H as -> ->; reflexivity | right; exact H].
Qed.

(** C8 fails on [Demo.broken], by the defect shown for C3.  The run
    [Demo.twoErrors] is one in which the [select] took the session's done
    signal, the client was closed and the error-copy goroutine received
    the error of the session.  Whenever the relay of standard output has
    sent its read error, in this run or in any other, the slot of [errCh]
    holds that error: the error of the session has not been sent and the
    error-copy goroutine has not ended, whatever has run since, so that
    [errWg.Wait()] has not returned and the task has not finished. *)
Theorem session_error_not_delivered :
  task_reachable Demo.colors Demo.broken false "uptime" Demo.brokenStuck
  /\ errorSig (remote Demo.broken)
     = SigError "wait: remote command exited without exit status"
  /\ selected (trace (snd Demo.brokenStuck))
  /\ In (EvErrorRecv (Some "wait: remote command exited without exit status"))
       (trace (snd Demo.brokenStuck))
  /\ In (EvSend ThOut "read tcp: connection reset by peer")
       (trace (snd Demo.brokenStuck))
  /\ (forall st,
        task_reachable Demo.colors Demo.broken false "uptime" st ->
        In (EvSend ThOut "read tcp: connection reset by peer")
          (trace (snd st)) ->
        errCh (snd st) = Some "read tcp: connection reset by peer"
        /\ (forall e, ~ In (EvSend ThErr e) (trace (snd st)))
        /\ errPc (snd st) <> CpDone
        /\ mainPc (snd st) <> MDeferSession
        /\ mainPc (snd st) <> MDeferClient
        /\ mainPc (snd st) <> MReturned).
Proof.
  split; [exists false, Demo.twoErrors; vm_compute; reflexivity|].
  split; [reflexivity|].
  split.
  { exists EvSessionDone,
      [EvSshClient None; EvNewSession None; EvGoPipeExec "uptime"; EvReady;
       EvSend ThOut "read tcp: connection reset by peer";
       EvErrorRecv (Some "wait: remote command exited without exit status")],
      [].
    split; [right; reflexivity|]. split; [reflexivity|].
    intros H; simpl in H;
      repeat (destruct H as [H|H]; [discriminate H|]); exact H. }
  split; [simpl; tauto|]. split; [simpl; tauto|].
  intros st Hreach Hin.
  assert (Hslot : slot_inv (snd st)).
  { revert st Hreach Hin. intros st Hreach _. revert st Hreach.
    apply task_invariant.
    - left. split; reflexivity.
    - intros c a t t'. apply slot_inv_step. }
  destruct (task_end_reach Demo.colors Demo.broken false "uptime" st
              eq_refl eq_refl Hreach) as (_ & _ & Hev & Hfin).
  apply sends_In in Hin.
  destruct Hslot as [[_ Hs]|(th & e & Hch & Hs)];
    [rewrite Hs in Hin; contradiction|].
  rewrite Hs in Hin. destruct Hin as [Hin|[]]. injection Hin as -> ->.
  assert (Hno : forall e, ~ In (EvSend ThErr e) (trace (snd st))).
  { intros e He. apply sends_In in He. rewrite Hs in He.
    destruct He as [He|[]]. discriminate He. }
  assert (Hcp : errPc (snd st) <> CpDone).
  { intros Hdone. unfold copy_evidence in Hev. rewrite Hdone in Hev.
    destruct Hev as [[Hsig _]|(e & _ & Hb & _)]; [discriminate Hsig|].
    apply (Hno e). eapply before_In_r. exact Hb. }
  split; [exact Hch|]. split; [exact Hno|]. split; [exact Hcp|].
  unfold finish_inv, waited in Hfin.
  repeat split; intros Hpc; rewrite Hpc in Hfin; apply Hcp; apply Hfin.
Qed.

(** C7 fails on the tag "flaky" of [Cases.byTag], which names a server
    that is down and [Demo.broken], by the same defect.  The target
    resolves; the error of the server that is down is reported and its
    goroutine ends; the task of [Demo.broken] comes to a stop with its
    second error unsent.  From then on the only thing that can happen is
    the arrival of a signal, which changes nothing for the task:
    [serverWg.Wait()] never returns, and neither does [Exec]. *)
Theorem partial_failure_blocks_exec :
  Cases.byTag "flaky" = [Demo.down; Demo.broken]
  /\ run Demo.colors Demo.byName Cases.byTag Demo.bgRedHiWhite
       "flaky" "uptime" false Cases.flakyRun initial = Some Cases.flakyStuck
  /\ map (fun j => (Name (server j), jobPc j, printed j))
       (jobs Cases.flakyStuck)
     = [("down", JDone,
         [Demo.bgRedHiWhite "down:  dial tcp: i/o timeout"; Bytes.nl]);
        ("broken", JExec, [])]
  /\ execPc Cases.flakyStuck = DWait
  /\ serverWg Cases.flakyStuck = 1
  /\ (forall a,
        a <> ASignal ->
        step Demo.colors Demo.byName Cases.byTag Demo.bgRedHiWhite
          "flaky" "uptime" false a Cases.flakyStuck = None)
  /\ (forall sched st',
        run Demo.colors Demo.byName Cases.byTag Demo.bgRedHiWhite
          "flaky" "uptime" false sched Cases.flakyStuck = Some st' ->
        execPc st' = DWait
        /\ jobs st' = jobs Cases.flakyStuck
        /\ serverWg st' = 1).
Proof.
  split; [reflexivity|].
  do 4 (split; [vm_compute; reflexivity|]).
  assert (Hstuck : forall a,
             a <> ASignal ->
             step Demo.colors Demo.byName Cases.byTag Demo.bgRedHiWhite
               "flaky" "uptime" false a Cases.flakyStuck = None).
  { intros a Ha.
    destruct a as [| |i ta|i|i]; [congruence | vm_compute; reflexivity | | |];
      destruct i as [|[|i]]; try destruct ta; vm_compute; reflexivity. }
  assert (Hcancel : forall a,
             step Demo.colors Demo.byName Cases.byTag Demo.bgRedHiWhite
               "flaky" "uptime" false a Cases.flakyCancelled = None
             \/ step Demo.colors Demo.byName Cases.byTag Demo.bgRedHiWhite
                  "flaky" "uptime" false a Cases.flakyCancelled
                = Some Cases.flakyCancelled).
  { intros a.
    destruct a as [| |i ta|i|i];
      [right; vm_compute; reflexivity | left; vm_compute; reflexivity | | |];
      left; destruct i as [|[|i]]; try destruct ta; vm_compute; reflexivity. }
  assert (Hsignal : step Demo.colors Demo.byName Cases.byTag
                      Demo.bgRedHiWhite "flaky" "uptime" false ASignal
                      Cases.flakyStuck = Some Cases.flakyCancelled).
  { vm_compute. reflexivity. }
  split; [exact Hstuck|].
  assert (Hclosed : forall sched st st',
             st = Cases.flakyStuck \/ st = Cases.flakyCancelled ->
             run Demo.colors Demo.byName Cases.byTag Demo.bgRedHiWhite
               "flaky" "uptime" false sched st = Some st' ->
             st' = Cases.flakyStuck \/ st' = Cases.flakyCancelled).
  { induction sched as [|a sched IH]; intros st st' Hst Hrun.
    - injection Hrun as <-. exact Hst.
    - change (match step Demo.colors Demo.byName Cases.byTag
                      Demo.bgRedHiWhite "flaky" "uptime" false a st with
              | Some st1 =>
                  run Demo.colors Demo.byName Cases.byTag Demo.bgRedHiWhite
                    "flaky" "uptime" false sched st1
              | None => None
              end = Some st') in Hrun.
      destruct (step Demo.colors Demo.byName Cases.byTag Demo.bgRedHiWhite
                  "flaky" "uptime" false a st) as [st1|] eqn:Ha;
        [|discriminate Hrun].
      apply (IH st1 st'); [|exact Hrun]. right.
      destruct Hst as [-> | ->].
      + destruct a as [| |i ta|i|i];
          try (rewrite Hstuck in Ha by discriminate; discriminate Ha).
        rewrite Hsignal in Ha. injection Ha as <-. reflexivity.
      + destruct (Hcancel a) as [H|H]; rewrite H in Ha;
          [discriminate Ha | injection Ha as <-; reflexivity]. }
  intros sched st' Hrun.
  destruct (Hclosed sched _ st' (or_introl eq_refl) Hrun) as [-> | ->];
    repeat split; vm_compute; reflexivity.
Qed.

(* ------------------------------------------------------------------ *)
(** ** These statements on concrete runs *)

(** [Demo.broken], stuck with the slot full: one send completed. *)
Lemma one_send_completes_within_exec_witness :
  task_reachable Demo.colors Demo.broken false "uptime" Demo.brokenStuck
  /\ length (sends (trace (snd Demo.brokenStuck))) <= 1
  /\ send ThErr "wait: remote command exited without exit status"
       (snd Demo.brokenStuck) = None.
Proof.
  assert (Hreach : task_reachable Demo.colors Demo.broken false "uptime"
                     Demo.brokenStuck).
  { exists false, Demo.twoErrors. vm_compute. reflexivity. }
  split; [exact Hreach|].
  destruct (one_send_completes_within_exec _ _ _ _ _ Hreach)
    as (_ & Hlen & Hblock).
  split; [exact Hlen|]. apply Hblock. discriminate.
Defined.

(** The whole run on [Demo.web1]. *)
Lemma exec_closes_on_return_witness :
  task_reachable Demo.colors Demo.web1 false "uptime" Demo.web1Lines
  /\ mainPc (snd Demo.web1Lines) = MReturned
  /\ client_closes (trace (snd Demo.web1Lines)) = 2
  /\ session_closes (trace (snd Demo.web1Lines)) = 1
  /\ before EvClientClose EvSessionClose (trace (snd Demo.web1Lines)).
Proof.
  assert (Hreach : task_reachable Demo.colors Demo.web1 false "uptime"
                     Demo.web1Lines).
  { exists false, Demo.fullRun. vm_compute. reflexivity. }
  split; [exact Hreach|]. split; [reflexivity|].
  exact (exec_closes_on_return Demo.colors Demo.web1 false "uptime"
           Demo.web1Lines Hreach eq_refl).
Defined.

(** [Cases.silent] after a cancellation. *)
Lemma silent_error_signal_never_returns_witness :
  dial (remote Cases.silent) = None
  /\ newSession (remote Cases.silent) = None
  /\ errorSig (remote Cases.silent) = SigSilent
  /\ task_reachable Demo.colors Cases.silent false "uptime"
       Cases.silentWaiting
  /\ fst Cases.silentWaiting = true
  /\ mainPc (snd Cases.silentWaiting) = MWait
  /\ exec_step Demo.colors Cases.silent false "uptime"
       (fst Cases.silentWaiting) TMain (snd Cases.silentWaiting) = None.
Proof.
  assert (Hreach : task_reachable Demo.colors Cases.silent false "uptime"
                     Cases.silentWaiting).
  { exists false, Cases.silentRun. vm_compute. reflexivity. }
  do 3 (split; [reflexivity|]). split; [exact Hreach|].
  do 2 (split; [reflexivity|]).
  destruct (silent_error_signal_never_returns Demo.colors Cases.silent false
              "uptime" Cases.silentWaiting eq_refl eq_refl eq_refl Hreach)
    as (_ & _ & Hblock).
  exact (Hblock eq_refl).
Defined.

(** The whole run on [Demo.web1]: its write came after the ready signal. *)
Lemma relay_waits_for_ready_witness :
  task_reachable Demo.colors Demo.web1 false "uptime" Demo.web1Lines
  /\ writes (trace (snd Demo.web1Lines)) <> []
  /\ In EvReady (trace (snd Demo.web1Lines))
  /\ readySig (remote Demo.web1) = true.
Proof.
  assert (Hreach : task_reachable Demo.colors Demo.web1 false "uptime"
                     Demo.web1Lines).
  { exists false, Demo.fullRun. vm_compute. reflexivity. }
  assert (Hw : writes (trace (snd Demo.web1Lines)) <> []) by discriminate.
  split; [exact Hreach|]. split; [exact Hw|].
  destruct (relay_waits_for_ready _ _ _ _ _ Hreach) as [Hready _].
  apply Hready. left. exact Hw.
Defined.

(** The whole run on [Demo.web1]: the command was started once. *)
Lemma command_started_once_witness :
  task_reachable Demo.colors Demo.web1 false "uptime" Demo.web1Lines
  /\ started (trace (snd Demo.web1Lines)) = ["uptime"].
Proof.
  assert (Hreach : task_reachable Demo.colors Demo.web1 false "uptime"
                     Demo.web1Lines).
  { exists false, Demo.fullRun. vm_compute. reflexivity. }
  split; [exact Hreach|].
  destruct (command_started_once _ _ _ _ _ Hreach) as [_ Hret].
  exact (Hret eq_refl eq_refl eq_refl).
Defined.

(** [Demo.broken] from the end of its relay to the state in which it is
    stuck. *)
Lemma stopped_relay_writes_nothing_witness :
  task_reachable Demo.colors Demo.broken false "uptime" Cases.brokenRelayEnd
  /\ relay_stopped (snd Cases.brokenRelayEnd)
  /\ task_run Demo.colors Demo.broken false "uptime"
       [SDo TErr; SDo TSelDone] Cases.brokenRelayEnd
     = Some Demo.brokenStuck
  /\ writes (trace (snd Demo.brokenStuck))
     = writes (trace (snd Cases.brokenRelayEnd)).
Proof.
  assert (Hreach : task_reachable Demo.colors Demo.broken false "uptime"
                     Cases.brokenRelayEnd).
  { exists false, Cases.brokenRelayRun. vm_compute. reflexivity. }
  assert (Hrun : task_run Demo.colors Demo.broken false "uptime"
                   [SDo TErr; SDo TSelDone] Cases.brokenRelayEnd
                 = Some Demo.brokenStuck).
  { vm_compute. reflexivity. }
  split; [exact Hreach|]. split; [exact I|]. split; [exact Hrun|].
  exact (proj2 (stopped_relay_writes_nothing _ _ _ _ _ _ _ Hreach I Hrun)).
Defined.

(** [Demo.failing] at its [select]: the session is done and its error
    finds the slot free. *)
Lemma exec_can_finish_witness :
  dial (remote Demo.failing) = None
  /\ newSession (remote Demo.failing) = None
  /\ doneSig (remote Demo.failing) = true
  /\ task_reachable Demo.colors Demo.failing false "uptime"
       Cases.failingAtSelect
  /\ exists st',
       task_run Demo.colors Demo.failing false "uptime"
         (map SDo [TSelDone; TErr; TErr; TMain; TMain; TMain])
         Cases.failingAtSelect = Some st'
       /\ mainPc (snd st') = MReturned.
Proof.
  assert (Hreach : task_reachable Demo.colors Demo.failing false "uptime"
                     Cases.failingAtSelect).
  { exists false, Cases.failingRun. vm_compute. reflexivity. }
  assert (Hquiet : quiet_stdout Demo.colors Demo.failing false).
  { right. split; [intros e; discriminate|].
    eexists Demo.green, _, _. repeat split. }
  do 3 (split; [reflexivity|]). split; [exact Hreach|].
  destruct (exec_can_finish Demo.colors Demo.failing false "uptime"
              Cases.failingAtSelect eq_refl eq_refl
              (or_intror (conj (ex_intro _ _ eq_refl) Hquiet))
              (or_introl eq_refl) Hreach)
    as (sched & st' & _ & Hsched & Hrun & Hret).
  exists st'. split; [|exact Hret].
  rewrite Hsched in Hrun. exact Hrun.
Defined.

(** The run on "mixed" without a signal, and the run that a signal
    interrupts. *)
Lemma ctx_case_needs_signal_witness :
  (run Demo.colors Demo.byName Demo.byTag Demo.bgRedHiWhite
     "mixed" "uptime" false Demo.mixedRun initial = Some Demo.mixedEnd
   /\ (cancelled Demo.mixedEnd = true <-> In ASignal Demo.mixedRun))
  /\ (run Demo.colors Demo.byName Demo.byTag Demo.bgRedHiWhite
        "mixed" "uptime" false Cases.interruptedRun initial
      = Some Cases.interruptedEnd
      /\ Forall (fun j => In EvCtxDone (trace (task j)) ->
                          In ASignal Cases.interruptedRun)
           (jobs Cases.interruptedEnd)).
Proof.
  assert (Hmixed : run Demo.colors Demo.byName Demo.byTag Demo.bgRedHiWhite
                     "mixed" "uptime" false Demo.mixedRun initial
                   = Some Demo.mixedEnd).
  { vm_compute. reflexivity. }
  assert (Hint : run Demo.colors Demo.byName Demo.byTag Demo.bgRedHiWhite
                   "mixed" "uptime" false Cases.interruptedRun initial
                 = Some Cases.interruptedEnd).
  { vm_compute. reflexivity. }
  split.
  - split; [exact Hmixed|].
    exact (proj1 (ctx_case_needs_signal _ _ _ _ _ _ _ _ _ Hmixed)).
  - split; [exact Hint|].
    exact (proj2 (ctx_case_needs_signal _ _ _ _ _ _ _ _ _ Hint)).
Defined.


(** The reports of the run on the tag "mixed". *)
Lemma report_is_first_error_witness :
  reachable Demo.colors Demo.byName Demo.byTag Demo.bgRedHiWhite
    "mixed" "uptime" false Demo.mixedEnd
  /\ Forall (fun j =>
               printed j = []
               \/ exists th e rest,
                    printed j =
                      [report Demo.bgRedHiWhite false (server j) e; Bytes.nl]
                    /\ sends (trace (task j)) = (th, e) :: rest)
       (jobs Demo.mixedEnd).
Proof.
  assert (Hreach : reachable Demo.colors Demo.byName Demo.byTag
                     Demo.bgRedHiWhite "mixed" "uptime" false Demo.mixedEnd).
  { exists Demo.mixedRun. vm_compute. reflexivity. }
  split; [exact Hreach|].
  exact (report_is_first_error _ _ _ _ _ _ _ _ Hreach).
Defined.

(** The goroutine of [down] calls [serverWg.Done()] in [Demo.earlyEnd]. *)
Lemma serverWg_Done_positive_witness :
  reachable Demo.colors Demo.byName Demo.byTag Demo.bgRedHiWhite
    "bad" "uptime" false Demo.earlyEnd
  /\ step Demo.colors Demo.byName Demo.byTag Demo.bgRedHiWhite
       "bad" "uptime" false (AWgDone 0) Demo.earlyEnd = Some Cases.earlyDone
  /\ 1 <= serverWg Demo.earlyEnd
  /\ serverWg Cases.earlyDone + 1 = serverWg Demo.earlyEnd.
Proof.
  assert (Hreach : reachable Demo.colors Demo.byName Demo.byTag
                     Demo.bgRedHiWhite "bad" "uptime" false Demo.earlyEnd).
  { exists Demo.earlyReport. vm_compute. reflexivity. }
  assert (Hstep : step Demo.colors Demo.byName Demo.byTag Demo.bgRedHiWhite
                    "bad" "uptime" false (AWgDone 0) Demo.earlyEnd
                  = Some Cases.earlyDone).
  { vm_compute. reflexivity. }
  split; [exact Hreach|]. split; [exact Hstep|].
  exact (serverWg_Done_positive _ _ _ _ _ _ _ _ _ _ Hreach Hstep).
Defined.
